(** * 3D isothermal finite hyperelasticity, hole-in-plate (3D4_hip.py)

    A shallow embedding of the script in two parts.

    - [Kinematics]: the subroutines [F_calc], [lambdaBar_calc], [zeta_calc],
      [Gshear_AB_calc], [T_calc] and [Tmat_calc].  They build pointwise
      expressions, so a displacement field is seen at one material point,
      through the value of its gradient there, and a pressure field through
      its value.  Numbers are exact reals: [J**(-2/3)] is [Rpower J (-2/3)]
      (the meaning of a real power for [0 < J]) and [z**2.0] is [z ^ 2].
      [Partial] evaluates the same expressions with the points where a
      power, a quotient or a square root has no finite value.

    - [Driver]: the time-stepping loop, in exact rational arithmetic, over an
      abstract space of mixed fields and an abstract nonlinear solver. *)

From Stdlib Require Import Reals Lra Psatz.
From Stdlib Require Import ZArith QArith Qround List String Bool Lia.
Import ListNotations.

(** ** Kinematics and constitutive equations *)

Module Kinematics.

Local Open Scope R_scope.

(** 3x3 tensors, row by row. *)
Record M33 : Type := mk33 {
  m11 : R; m12 : R; m13 : R;
  m21 : R; m22 : R; m23 : R;
  m31 : R; m32 : R; m33 : R
}.

(** [Identity(3)] *)
Definition Identity3 : M33 := mk33 1 0 0  0 1 0  0 0 1.

Definition Zero3 : M33 := mk33 0 0 0  0 0 0  0 0 0.

(** [A + B] *)
Definition madd (A B : M33) : M33 :=
  mk33 (m11 A + m11 B) (m12 A + m12 B) (m13 A + m13 B)
       (m21 A + m21 B) (m22 A + m22 B) (m23 A + m23 B)
       (m31 A + m31 B) (m32 A + m32 B) (m33 A + m33 B).

(** [A - B] *)
Definition msub (A B : M33) : M33 :=
  mk33 (m11 A - m11 B) (m12 A - m12 B) (m13 A - m13 B)
       (m21 A - m21 B) (m22 A - m22 B) (m23 A - m23 B)
       (m31 A - m31 B) (m32 A - m32 B) (m33 A - m33 B).

(** [c * A] for a scalar [c] *)
Definition smul (c : R) (A : M33) : M33 :=
  mk33 (c * m11 A) (c * m12 A) (c * m13 A)
       (c * m21 A) (c * m22 A) (c * m23 A)
       (c * m31 A) (c * m32 A) (c * m33 A).

(** [A * B] for two tensors *)
Definition mmul (A B : M33) : M33 :=
  mk33 (m11 A * m11 B + m12 A * m21 B + m13 A * m31 B)
       (m11 A * m12 B + m12 A * m22 B + m13 A * m32 B)
       (m11 A * m13 B + m12 A * m23 B + m13 A * m33 B)
       (m21 A * m11 B + m22 A * m21 B + m23 A * m31 B)
       (m21 A * m12 B + m22 A * m22 B + m23 A * m32 B)
       (m21 A * m13 B + m22 A * m23 B + m23 A * m33 B)
       (m31 A * m11 B + m32 A * m21 B + m33 A * m31 B)
       (m31 A * m12 B + m32 A * m22 B + m33 A * m32 B)
       (m31 A * m13 B + m32 A * m23 B + m33 A * m33 B).

(** [A.T] *)
Definition transpose (A : M33) : M33 :=
  mk33 (m11 A) (m21 A) (m31 A)
       (m12 A) (m22 A) (m32 A)
       (m13 A) (m23 A) (m33 A).

(** [tr(A)] *)
Definition tr (A : M33) : R := m11 A + m22 A + m33 A.

(** [det(A)], expanded along the first row *)
Definition det (A : M33) : R :=
    m11 A * (m22 A * m33 A - m23 A * m32 A)
  - m12 A * (m21 A * m33 A - m23 A * m31 A)
  + m13 A * (m21 A * m32 A - m22 A * m31 A).

(** The adjugate of [A] (transposed cofactors). *)
Definition adj (A : M33) : M33 :=
  mk33 (m22 A * m33 A - m23 A * m32 A)
       (m13 A * m32 A - m12 A * m33 A)
       (m12 A * m23 A - m13 A * m22 A)
       (m23 A * m31 A - m21 A * m33 A)
       (m11 A * m33 A - m13 A * m31 A)
       (m13 A * m21 A - m11 A * m23 A)
       (m21 A * m32 A - m22 A * m31 A)
       (m12 A * m31 A - m11 A * m32 A)
       (m11 A * m22 A - m12 A * m21 A).

(** [inv(A)]: the adjugate over the determinant. *)
Definition inv (A : M33) : M33 := smul (/ det A) (adj A).

(** [dev(A)]: the deviatoric part, [A - (1/3) tr(A) I]. *)
Definition dev (A : M33) : M33 := msub A (smul (tr A / 3) Identity3).

(** A displacement field at a material point: the value of [grad(u)]. *)
Record vfield : Type := mkfield { grad : M33 }.

(** The field that vanishes identically. *)
Definition zero_field : vfield := mkfield Zero3.

(** Material parameters (Arruda-Boyce model). *)
Definition Gshear_0 : R := 280.         (* Ground state shear modulus *)
Definition lambdaL  : R := 5.12.        (* Locking stretch *)
Definition Kbulk    : R := 1000 * Gshear_0.

(** Deformation gradient. *)
Definition F_calc (u : vfield) : M33 :=
  let Id := Identity3 in
  let F  := madd Id (grad u) in
  F.

(** [conditional(gt(z,0.95), 0.95, z)] *)
Definition conditional_gt (z : R) : R := if Rgt_dec z 0.95 then 0.95 else z.

Section ModuleLevel.

(** The displacement part [u] of the module-level unknown [w]
    ([u, p = split(w)]). *)
Variable u_w : vfield.

(** Module level: [F = F_calc(u)], [J = det(F)].  These are the names a
    subroutine that does not bind [J] itself resolves to. *)
Definition F_global : M33 := F_calc u_w.
Definition J_global : R := det F_global.

Definition lambdaBar_calc (u : vfield) : R :=
  let F := F_calc u in
  let C := mmul (transpose F) F in
  let Cdis := smul (Rpower J_global (-2/3)) C in
  let I1 := tr Cdis in
  let lambdaBar := sqrt (I1 / 3) in
  lambdaBar.

Definition zeta_calc (u : vfield) : R :=
  let lambdaBar := lambdaBar_calc u in
  let z := lambdaBar / lambdaL in
  let z := conditional_gt z in
  let beta := z * (3 - z ^ 2) / (1 - z ^ 2) in
  let zeta := (lambdaL / (3 * lambdaBar)) * beta in
  zeta.

(** Generalized shear modulus for the Arruda-Boyce model. *)
Definition Gshear_AB_calc (u : vfield) : R :=
  let zeta := zeta_calc u in
  let Gshear := Gshear_0 * zeta in
  Gshear.

(** Cauchy stress. *)
Definition T_calc (u : vfield) (p : R) : M33 :=
  let Id := Identity3 in
  let F := F_calc u in
  let J := det F in
  let B := mmul F (transpose F) in
  let Bdis := smul (Rpower J (-2/3)) B in
  let Gshear := Gshear_AB_calc u in
  let T := msub (smul (1 / J * Gshear) (dev Bdis)) (smul p Id) in
  T.

(** Piola stress. *)
Definition Tmat_calc (u : vfield) (p : R) : M33 :=
  let Id := Identity3 in
  let F := F_calc u in
  let J := det F in
  let T := T_calc u p in
  let Tmat := mmul (smul J T) (inv (transpose F)) in
  Tmat.

(** Module level: [lambdaBar = lambdaBar_calc(u)], [Tmat = Tmat_calc(u, p)]
    for the pressure part [p] of [w]. *)
Definition lambdaBar_global : R := lambdaBar_calc u_w.
Definition Tmat_global (p_w : R) : M33 := Tmat_calc u_w p_w.

End ModuleLevel.

(** *** The formulas of the specification, for comparison *)

(** The effective stretch with every quantity taken from the argument:
    [C = F^T F], [Cbar = J^(-2/3) C] with [J = det F(u)],
    [lambdaBar = sqrt(tr(Cbar)/3)]. *)
Definition lambdaBar_spec (u : vfield) : R :=
  let F := F_calc u in
  let J := det F in
  let C := mmul (transpose F) F in
  let Cbar := smul (Rpower J (-2/3)) C in
  sqrt (tr Cbar / 3).

(** The effective shear modulus of the text, from the effective stretch of
    the argument itself: [z = lambdaBar/lambdaL] clamped to at most 0.95,
    [beta(z) = z (3 - z^2) / (1 - z^2)],
    [zeta = (lambdaL / (3 lambdaBar)) beta(z)], [G(u) = Gshear_0 zeta]. *)
Definition G_spec (u : vfield) : R :=
  let lambdaBar := lambdaBar_spec u in
  let z := Rmin (lambdaBar / lambdaL) 0.95 in
  let beta := z * (3 - z ^ 2) / (1 - z ^ 2) in
  let zeta := lambdaL / (3 * lambdaBar) * beta in
  Gshear_0 * zeta.

(** [T(u,p) = (1/J) G(u) dev(J^(-2/3) F F^T) - p I] with [J = det F(u)]. *)
Definition T_spec (u : vfield) (p : R) : M33 :=
  let F := F_calc u in
  let J := det F in
  msub (smul (1 / J)
          (smul (G_spec u)
             (dev (smul (Rpower J (-2/3)) (mmul F (transpose F))))))
       (smul p Identity3).

(** [P(u,p) = J T(u,p) F^-T], the inverse transposed. *)
Definition P_spec (u : vfield) (p : R) : M33 :=
  let F := F_calc u in
  let J := det F in
  smul J (mmul (T_spec u p) (transpose (inv F))).

(** The largest value of [zeta]: the one at the clamp. *)
Definition zeta_max : R := (3 - 0.95 ^ 2) / (3 * (1 - 0.95 ^ 2)).

(** A uniaxial stretch by 2 along the first axis: [grad u = diag(1,0,0)]. *)
Definition stretched : vfield := mkfield (mk33 1 0 0  0 0 0  0 0 0).

End Kinematics.

(** ** Where the constitutive expressions have a value *)

Module Partial.
Import Kinematics.
Local Open Scope R_scope.

(** The value of an expression where evaluating it gives a finite number;
    [None] stands for NaN and the infinities, which every later operation
    hands on.  Rounding and overflow are left out. *)
Definition bind {A B : Type} (x : option A) (f : A -> option B) : option B :=
  match x with
  | Some a => f a
  | None => None
  end.

Notation "x <- e ;; k" := (bind e (fun x => k))
  (at level 61, e at next level, right associativity).

(** [x ** y]: NaN for a negative base, infinite for base 0 and a negative
    exponent. *)
Definition power (x y : R) : option R :=
  if Rlt_dec 0 x then Some (Rpower x y)
  else if Rlt_dec x 0 then None
  else if Rlt_dec 0 y then Some 0
  else if Rlt_dec y 0 then None
  else Some 1.

(** [a / b]: infinite or NaN for [b = 0]. *)
Definition divide (a b : R) : option R :=
  if Req_dec_T b 0 then None else Some (a / b).

(** [sqrt(x)]: NaN for a negative [x]. *)
Definition root (x : R) : option R :=
  if Rle_dec 0 x then Some (sqrt x) else None.

Section ModuleLevel.

(** The displacement part of the module-level unknown. *)
Variable u_w : vfield.

Definition lambdaBar_calc_value (u : vfield) : option R :=
  let F := F_calc u in
  let C := mmul (transpose F) F in
  r <- power (J_global u_w) (-2/3) ;;
  let Cdis := smul r C in
  let I1 := tr Cdis in
  lambdaBar <- root (I1 / 3) ;;
  Some lambdaBar.

Definition zeta_calc_value (u : vfield) : option R :=
  lambdaBar <- lambdaBar_calc_value u ;;
  let z := lambdaBar / lambdaL in
  let z := conditional_gt z in
  beta <- divide (z * (3 - z ^ 2)) (1 - z ^ 2) ;;
  q <- divide lambdaL (3 * lambdaBar) ;;
  let zeta := q * beta in
  Some zeta.

Definition Gshear_AB_calc_value (u : vfield) : option R :=
  zeta <- zeta_calc_value u ;;
  let Gshear := Gshear_0 * zeta in
  Some Gshear.

End ModuleLevel.

(** A reflection in the first axis, [F = diag(-1,1,1)], and the collapse
    onto a point, [F = 0]. *)
Definition inverted : vfield := mkfield (mk33 (-2) 0 0  0 0 0  0 0 0).
Definition collapsed : vfield :=
  mkfield (mk33 (-1) 0 0  0 (-1) 0  0 0 (-1)).

End Partial.

(** ** The load-stepping driver *)

Module Driver.

Local Open Scope Q_scope.

(** Python's [round(x, ndigits)] on an exact value: the nearest multiple of
    [10^-ndigits], a tie going to the even one. *)
Definition round_half_even (x : Q) : Z :=
  let f := Qfloor x in
  match Qcompare (x - inject_Z f) (1 # 2) with
  | Lt => f
  | Gt => (f + 1)%Z
  | Eq => if Z.even f then f else (f + 1)%Z
  end.

Definition round (x : Q) (ndigits : nat) : Q :=
  let m := inject_Z (10 ^ Z.of_nat ndigits) in
  inject_Z (round_half_even (x * m)) / m.

(** Dimensions of one quarter of the specimen. *)
Definition L0 : Q := 15.   (* Length mm *)
Definition W0 : Q := 10.   (* Width mm *)
Definition T0 : Q := 1.    (* Thickness mm *)

(** Simulation time control-related parameters. *)
Definition stretch  : Q := 3.
Definition dispTot  : Q := (stretch - 1) * L0.
Definition rate     : Q := 1.
Definition Ttot     : Q := (stretch - 1) / rate.
Definition numSteps : nat := 100.
Definition dt       : Q := Ttot / inject_Z (Z.of_nat numSteps).

(** [Expression("dispTot*t/Ttot", t = .., dispTot = .., Ttot = ..)]: an
    object whose parameters can be re-assigned; its value is read when the
    boundary conditions are applied. *)
Record Expression : Type := mkExpression {
  expr_t : Q;
  expr_dispTot : Q;
  expr_Ttot : Q
}.

Definition eval (e : Expression) : Q := expr_dispTot e * expr_t e / expr_Ttot e.

Definition set_expr_t (e : Expression) (v : Q) : Expression :=
  mkExpression v (expr_dispTot e) (expr_Ttot e).

(** [a[i] = v] on a numpy array: out of range is an IndexError. *)
Definition setitem (a : list Q) (i : nat) (v : Q) : option (list Q) :=
  if (i <? List.length a)%nat
  then Some (firstn i a ++ v :: skipn (S i) a)
  else None.

(** [np.zeros(shape=[n])] *)
Definition zeros (n : nat) : list Q := repeat 0 n.

(** The names under which [writeResults] writes its eight fields. *)
Definition field_names : list string :=
  [ "disp"; "p"; "J"; "LambdaBar";
    "P11, kPa"; "P22, kPa"; "P33, kPa"; "Mises, kPa" ]%string.

(** Lines printed on standard output; the numbers of a formatted line are
    kept as numbers. *)
Inductive line : Type :=
| Text (s : string)
| Progress (step : string) (simTime : Q) (wallclock : Q)
| Iterations (n : nat)
| Blank
| Elapsed (elapseTime : Q).

Definition rule36 : string := "------------------------------------".
Definition rule41 : string := "-----------------------------------------".
Definition rule42 : string := "------------------------------------------".

(** How the [while] loop was left. *)
Inductive loop_exit : Type :=
| CondFalse     (* the loop condition became false *)
| BreakStmt.    (* the [break] of the [except] clause *)

(** The driver's time after [j] increments: [t += dt], [j] times from 0. *)
Fixpoint tseq (j : nat) : Q :=
  match j with
  | O => 0
  | S j' => tseq j' + dt
  end.

(** The number of progress lines among the printed lines. *)
Fixpoint progress_count (l : list line) : nat :=
  match l with
  | [] => 0
  | Progress _ _ _ :: l' => S (progress_count l')
  | _ :: l' => progress_count l'
  end.

Section Run.

(** The mixed function space [ME]; [Function(ME)] is [w0]. *)
Variable W : Type.
Variable w0 : W.

(** What [solver.solve()] does with the current [w] and the value of the
    ramped boundary condition: it raises, or it returns
    [(iter, converged)]; either way [w] has been overwritten. *)
Inductive solve_result : Type :=
| Raised (w' : W)
| Returned (w' : W) (iter : nat) (converged : bool).

Variable solve : W -> Q -> solve_result.

(** [assemble(P11*ds(35))] with [P11 = project(Tmat[0,0],W)] at [w]. *)
Variable assemble_P11 : W -> Q.

(** [datetime.now()]: the reading of the n-th call, in seconds. *)
Variable now : nat -> Q.

Record state : Type := mkState {
  t : Q;
  ii : nat;
  dispRamp : Expression;
  w : W;
  w_old : W;
  iter : option nat;
  timeHist0 : list Q;
  timeHist1 : list Q;
  file_results : list (string * Q * W);  (* what was written to the XDMF file *)
  stdout : list line;
  clock : nat;                           (* calls of [datetime.now()] so far *)
  startTime : Q;
  solver_calls : list (W * Q);           (* calls of [solver.solve()] so far *)
  figure : option (list Q * list Q)      (* the data given to [plt.plot] *)
}.

Definition set_t (s : state) (v : Q) : state :=
  mkState v (ii s) (dispRamp s) (w s) (w_old s) (iter s) (timeHist0 s)
    (timeHist1 s) (file_results s) (stdout s) (clock s) (startTime s)
    (solver_calls s) (figure s).

Definition set_ii (s : state) (v : nat) : state :=
  mkState (t s) v (dispRamp s) (w s) (w_old s) (iter s) (timeHist0 s)
    (timeHist1 s) (file_results s) (stdout s) (clock s) (startTime s)
    (solver_calls s) (figure s).

Definition set_dispRamp (s : state) (v : Expression) : state :=
  mkState (t s) (ii s) v (w s) (w_old s) (iter s) (timeHist0 s)
    (timeHist1 s) (file_results s) (stdout s) (clock s) (startTime s)
    (solver_calls s) (figure s).

Definition set_w (s : state) (v : W) : state :=
  mkState (t s) (ii s) (dispRamp s) v (w_old s) (iter s) (timeHist0 s)
    (timeHist1 s) (file_results s) (stdout s) (clock s) (startTime s)
    (solver_calls s) (figure s).

Definition set_w_old (s : state) (v : W) : state :=
  mkState (t s) (ii s) (dispRamp s) (w s) v (iter s) (timeHist0 s)
    (timeHist1 s) (file_results s) (stdout s) (clock s) (startTime s)
    (solver_calls s) (figure s).

Definition set_iter (s : state) (v : option nat) : state :=
  mkState (t s) (ii s) (dispRamp s) (w s) (w_old s) v (timeHist0 s)
    (timeHist1 s) (file_results s) (stdout s) (clock s) (startTime s)
    (solver_calls s) (figure s).

Definition set_timeHist0 (s : state) (v : list Q) : state :=
  mkState (t s) (ii s) (dispRamp s) (w s) (w_old s) (iter s) v
    (timeHist1 s) (file_results s) (stdout s) (clock s) (startTime s)
    (solver_calls s) (figure s).

Definition set_timeHist1 (s : state) (v : list Q) : state :=
  mkState (t s) (ii s) (dispRamp s) (w s) (w_old s) (iter s) (timeHist0 s)
    v (file_results s) (stdout s) (clock s) (startTime s)
    (solver_calls s) (figure s).

Definition set_figure (s : state) (v : option (list Q * list Q)) : state :=
  mkState (t s) (ii s) (dispRamp s) (w s) (w_old s) (iter s) (timeHist0 s)
    (timeHist1 s) (file_results s) (stdout s) (clock s) (startTime s)
    (solver_calls s) v.

(** [file_results.write(.., t)], once per field. *)
Definition writeResults (s : state) (time : Q) : state :=
  mkState (t s) (ii s) (dispRamp s) (w s) (w_old s) (iter s) (timeHist0 s)
    (timeHist1 s)
    (file_results s ++ map (fun name => (name, time, w s)) field_names)
    (stdout s) (clock s) (startTime s) (solver_calls s) (figure s).

(** [print(..)] *)
Definition print (s : state) (l : line) : state :=
  mkState (t s) (ii s) (dispRamp s) (w s) (w_old s) (iter s) (timeHist0 s)
    (timeHist1 s) (file_results s) (stdout s ++ [l]) (clock s) (startTime s)
    (solver_calls s) (figure s).

(** [datetime.now()]: the reading and the state after it. *)
Definition read_clock (s : state) : Q * state :=
  (now (clock s),
   mkState (t s) (ii s) (dispRamp s) (w s) (w_old s) (iter s) (timeHist0 s)
     (timeHist1 s) (file_results s) (stdout s) (S (clock s)) (startTime s)
     (solver_calls s) (figure s)).

(** [solver.solve()]: the call is recorded, with what it reads. *)
Definition call_solver (s : state) : solve_result * state :=
  let bc := eval (dispRamp s) in
  (solve (w s) bc,
   mkState (t s) (ii s) (dispRamp s) (w s) (w_old s) (iter s) (timeHist0 s)
     (timeHist1 s) (file_results s) (stdout s) (clock s) (startTime s)
     (solver_calls s ++ [(w s, bc)]) (figure s)).

(** One pass through the body of the [while] loop. *)
Inductive ctl : Type :=
| Next (s : state)          (* the end of the body was reached *)
| Break (s : state)         (* [break] *)
| Error (s : state).        (* an exception nothing catches *)

(** The descriptive name of the step. *)
Definition step : string := "Stretch".

Definition body (s : state) : ctl :=
  (* increment time *)
  let s := set_t s (t s + dt) in
  (* increment counter *)
  let s := set_ii s (S (ii s)) in
  (* update time variables in time-dependent BCs *)
  let s := set_dispRamp s (set_expr_t (dispRamp s) (t s)) in
  (* Solve the problem *)
  match call_solver s with
  | (Raised w', s) => Break (set_w s w')
  | (Returned w' iter' converged, s) =>
      let s := set_iter (set_w s w') (Some iter') in
      (* Write output to *.xdmf file *)
      let s := writeResults s (t s) in
      (* Update DOFs for next step *)
      let s := set_w_old s (w s) in
      (* Store imposed axial stretch *)
      match setitem (timeHist0 s) (ii s) ((L0 + dispTot * t s / Ttot) / L0) with
      | None => Error s
      | Some a0 =>
          let s := set_timeHist0 s a0 in
          (* Store axial Piola stress *)
          match setitem (timeHist1 s) (ii s)
                  (2 * assemble_P11 (w s) / (W0 * T0)) with
          | None => Error s
          | Some a1 =>
              let s := set_timeHist1 s a1 in
              (* Print progress of calculation *)
              if (ii s mod 1 =? 0)%nat then
                let (current_time, s) := read_clock s in
                let s := print s (Progress step (round (t s) 4) current_time) in
                let s := match iter s with
                         | Some n => print s (Iterations n)
                         | None => s
                         end in
                Next (print s Blank)
              else Next s
          end
      end
  end.

(** How a run of the loop, or of the script, ends. *)
Inductive result : Type :=
| Exit (how : loop_exit) (s : state)
| Uncaught (s : state)
| OutOfFuel.

(** [while (round(t + dt, 9) <= Ttot): ...] *)
Definition cond (s : state) : bool := Qle_bool (round (t s + dt) 9) Ttot.

Fixpoint loop (fuel : nat) (s : state) : result :=
  match fuel with
  | O => OutOfFuel
  | S fuel' =>
      if cond s then
        match body s with
        | Next s' => loop fuel' s'
        | Break s' => Exit BreakStmt s'
        | Error s' => Uncaught s'
        end
      else Exit CondFalse s
  end.

(** The script up to the arrays for storing results: the initial state is
    written out, the start banner printed, the start time stored. *)
Definition totSteps : nat := (numSteps + 1)%nat.

Definition start : state :=
  let s := mkState 0 0%nat (mkExpression 0 dispTot Ttot) w0 w0 None
             [] [] [] [] 0%nat 0 [] None in
  let s := writeResults s 0 in
  let s := print s (Text rule36) in
  let s := print s (Text "Simulation Start") in
  let s := print s (Text rule36) in
  let (now0, s) := read_clock s in
  let s := mkState (t s) (ii s) (dispRamp s) (w s) (w_old s) (iter s)
             (timeHist0 s) (timeHist1 s) (file_results s) (stdout s)
             (clock s) now0 (solver_calls s) (figure s) in
  let s := set_timeHist0 s (zeros totSteps) in
  let s := set_timeHist1 s (zeros totSteps) in
  s.

(** End analysis: the closing banner with the elapsed real time, then the
    stress-stretch curve. *)
Definition end_banner (elapseTime : Q) : list line :=
  [ Text rule41; Text "End computation"; Text rule42;
    Elapsed elapseTime; Text rule42 ].

Definition finish (s : state) : state :=
  let s := print s (Text rule41) in
  let s := print s (Text "End computation") in
  let (endTime, s) := read_clock s in
  let elapseTime := endTime - startTime s in
  let s := print s (Text rule42) in
  let s := print s (Elapsed elapseTime) in
  let s := print s (Text rule42) in
  set_figure s (Some (timeHist0 s, map (fun x => x / 1000) (timeHist1 s))).

(** Initialize arrays for storing results, and the counter. *)
Definition prologue : ctl :=
  let s := start in
  match setitem (timeHist0 s) 0 1 with        (* initial stretch *)
  | None => Error s
  | Some a0 =>
      let s := set_timeHist0 s a0 in
      let s := set_ii s 0 in
      Next s
  end.

Definition script (fuel : nat) : result :=
  match prologue with
  | Next s =>
      match loop fuel s with
      | Exit how s => Exit how (finish s)
      | r => r
      end
  | Break s | Error s => Uncaught s
  end.

(** *** Observations on a run *)

(** The state at the head of the loop after [j] full passes, when the run
    gets that far. *)
Fixpoint after_steps (j : nat) : option state :=
  match j with
  | O => match prologue with Next s => Some s | _ => None end
  | S j' =>
      match after_steps j' with
      | Some s =>
          if cond s then
            match body s with Next s' => Some s' | _ => None end
          else None
      | None => None
      end
  end.

(** The state a pass through the body ends in, however it ends. *)
Definition state_of (c : ctl) : state :=
  match c with Next s | Break s | Error s => s end.

(** What [finish] prints. *)
Definition end_report (s : state) : list line :=
  skipn (List.length (stdout s)) (stdout (finish s)).

(** What holds at the head of the loop after [j] full passes. *)
Record head_invariant (j : nat) (s : state) : Prop := mkHead {
  head_ii : ii s = j;
  head_le : (j <= numSteps)%nat;
  head_t : t s = tseq j;
  head_ramp : dispRamp s = mkExpression (tseq j) dispTot Ttot;
  head_w_old : w_old s = w s;
  head_len0 : List.length (timeHist0 s) = totSteps;
  head_len1 : List.length (timeHist1 s) = totSteps;
  head_zeros : forall i, (j < i)%nat ->
    nth i (timeHist0 s) 0 = 0 /\ nth i (timeHist1 s) 0 = 0;
  head_first : nth 0 (timeHist0 s) 0 = 1;
  head_stretch : forall i, (1 <= i <= j)%nat ->
    nth i (timeHist0 s) 0 = (L0 + dispTot * tseq i / Ttot) / L0;
  head_calls : map snd (solver_calls s)
               = map (fun k => dispTot * tseq k / Ttot) (seq 1 j);
  head_progress : progress_count (stdout s) = j;
  head_clock : clock s = S j;
  head_start : startTime s = now 0;
  head_figure : figure s = None;
  head_written : last (map snd (file_results s)) w0 = w s
}.

End Run.

Arguments Raised {W} w'.
Arguments Returned {W} w' iter converged.
Arguments mkState {W}.
Arguments t {W} s.
Arguments ii {W} s.
Arguments dispRamp {W} s.
Arguments w {W} s.
Arguments w_old {W} s.
Arguments iter {W} s.
Arguments timeHist0 {W} s.
Arguments timeHist1 {W} s.
Arguments file_results {W} s.
Arguments stdout {W} s.
Arguments clock {W} s.
Arguments startTime {W} s.
Arguments solver_calls {W} s.
Arguments figure {W} s.
Arguments Next {W} s.
Arguments Break {W} s.
Arguments Error {W} s.
Arguments Exit {W} how s.
Arguments Uncaught {W} s.
Arguments OutOfFuel {W}.
Arguments state_of {W} c.
Arguments cond {W} s.

(** *** Sample runs over [W := nat], used as concrete instances *)

(** A solver that counts its successes in [w], needs 3 iterations each time,
    and raises at the call number [k] (never for [k = 0]). *)
Definition sample_solve (k : nat) (w : nat) (bc : Q) : solve_result nat :=
  if (S w =? k)%nat then Raised (w + 1000)%nat else Returned (S w) 3%nat true.

Definition sample_assemble (w : nat) : Q := inject_Z (Z.of_nat w).

(** A clock that ticks once per reading, and one that stands still. *)
Definition ticking (n : nat) : Q := inject_Z (Z.of_nat n).
Definition frozen (n : nat) : Q := 0.

(** The state at the head of the loop after [j] passes of such a run, the
    state the [j+1]-th pass ends in, and the state the script ends in. *)
Definition sample_head (k : nat) (now : nat -> Q) (j : nat) : state nat :=
  match after_steps nat 0%nat (sample_solve k) sample_assemble now j with
  | Some s => s
  | None => start nat 0%nat now
  end.

Definition sample_broken (k : nat) (now : nat -> Q) (j : nat) : state nat :=
  state_of
    (body nat (sample_solve k) sample_assemble now (sample_head k now j)).

Definition sample_final (k : nat) (now : nat -> Q) (fuel : nat) : state nat :=
  match script nat 0%nat (sample_solve k) sample_assemble now fuel with
  | Exit _ s => s
  | _ => start nat 0%nat now
  end.

End Driver.

(** ** Weak forms and post-processing *)

Module Fields.
Import Kinematics.
Local Open Scope R_scope.

(** [inner(A, B)] *)
Definition inner (A B : M33) : R :=
  m11 A * m11 B + m12 A * m12 B + m13 A * m13 B +
  m21 A * m21 B + m22 A * m22 B + m23 A * m23 B +
  m31 A * m31 B + m32 A * m32 B + m33 A * m33 B.

(** [A / c] for a scalar [c] *)
Definition sdiv (A : M33) (c : R) : M33 :=
  mk33 (m11 A / c) (m12 A / c) (m13 A / c)
       (m21 A / c) (m22 A / c) (m23 A / c)
       (m31 A / c) (m32 A / c) (m33 A / c).

Section ModuleLevel.

(** The displacement and pressure parts of the module-level unknown [w]. *)
Variable u_w : vfield.
Variable p_w : R.

(** The weak forms, at one point of the domain: the integrand of
    [inner(Tmat, grad(u_test))*dx] for the value of [grad(u_test)] there,
    and the integrand of [dot((p/Kbulk + fac_p), p_test)*dx] for the value
    of [p_test]. *)
Definition Res_0 (grad_u_test : M33) : R :=
  inner (Tmat_global u_w p_w) grad_u_test.

Definition fac_p : R := ln (J_global u_w) / J_global u_w.

Definition Res_1 (p_test : R) : R := (p_w / Kbulk + fac_p) * p_test.

Definition Res (grad_u_test : M33) (p_test : R) : R :=
  Res_0 grad_u_test + Res_1 p_test.

(** [writeResults]: the Mises stress, from [T = Tmat*F.T/J] and
    [T0 = T - (1/3)*tr(T)*Identity(3)]. *)
Definition T_vis : M33 :=
  sdiv (mmul (Tmat_global u_w p_w) (transpose (F_global u_w))) (J_global u_w).

Definition T0_vis : M33 := msub T_vis (smul (1 / 3 * tr T_vis) Identity3).

Definition Mises : R := sqrt (3 / 2 * inner T0_vis T0_vis).

End ModuleLevel.

(** A pure dilation, [F = a I]. *)
Definition dilation (a : R) : vfield :=
  mkfield (mk33 (a - 1) 0 0  0 (a - 1) 0  0 0 (a - 1)).

(** An isochoric uniaxial stretch, [F = diag(a^2, 1/a, 1/a)]. *)
Definition uniaxial (a : R) : vfield :=
  mkfield (mk33 (a ^ 2 - 1) 0 0  0 (/ a - 1) 0  0 0 (/ a - 1)).

(** A quarter turn about the third axis, and the field whose deformation
    gradient is that turn after the stretch of [stretched]. *)
Definition quarter_turn : M33 := mk33 0 (-1) 0  1 0 0  0 0 1.

Definition stretched_turned : vfield :=
  mkfield (mk33 (-1) (-1) 0  2 (-1) 0  0 0 0).

End Fields.

(** ** Further observations on a run *)

Module DriverObs.
Import Driver.
Local Open Scope Q_scope.

(** Whether a printed line is a progress line. *)
Definition is_progress (l : line) : bool :=
  match l with
  | Progress _ _ _ => true
  | _ => false
  end.

(** The number of steps that converged in a run that ended in [s]: the
    counter, less the pass that broke out of the loop. *)
Definition converged_steps {W} (how : loop_exit) (s : state W) : nat :=
  match how with
  | CondFalse => ii s
  | BreakStmt => pred (ii s)
  end.

End DriverObs.

(** ** Properties of the kinematics and of the material model *)

Module KinematicsFacts.

Import Kinematics.
Local Open Scope R_scope.

(** Componentwise equality of two tensors built from the operations. *)
Ltac tensor_eq :=
  cbv [dev inv adj msub madd mmul smul transpose tr det Identity3 Zero3
       m11 m12 m13 m21 m22 m23 m31 m32 m33];
  f_equal; first [ring | field].

Lemma div_nonneg a b : 0 <= a -> 0 < b -> 0 <= a / b.
Proof.
  intros Ha Hb. unfold Rdiv. apply Rmult_le_pos; [exact Ha|].
  left. now apply Rinv_0_lt_compat.
Qed.

Lemma div_le_of a b c : 0 < b -> a <= c * b -> a / b <= c.
Proof.
  intros Hb H. apply Rmult_le_reg_r with b; [exact Hb|].
  unfold Rdiv. rewrite Rmult_assoc, Rinv_l by lra. lra.
Qed.

Lemma F_calc_zero : F_calc zero_field = Identity3.
Proof. unfold F_calc, zero_field. cbn [grad]. tensor_eq. Qed.

Lemma det_Identity3 : det Identity3 = 1.
Proof. unfold det, Identity3. cbn. ring. Qed.

Lemma det_transpose A : det (transpose A) = det A.
Proof.
  unfold det, transpose. cbn [m11 m12 m13 m21 m22 m23 m31 m32 m33]. ring.
Qed.

Lemma inv_transpose A : inv (transpose A) = transpose (inv A).
Proof.
  unfold inv. rewrite det_transpose.
  generalize (/ det A). intro c. tensor_eq.
Qed.

Lemma Rpower_base_1 y : Rpower 1 y = 1.
Proof. unfold Rpower. rewrite ln_1, Rmult_0_r. apply exp_0. Qed.

Lemma Rpower_2_lt_1 : Rpower 2 (-2/3) < 1.
Proof.
  unfold Rpower. rewrite <- exp_0. apply exp_increasing.
  assert (H : 0 < ln 2) by (rewrite <- ln_1; apply ln_increasing; lra).
  lra.
Qed.

Lemma conditional_gt_Rmin z : conditional_gt z = Rmin z 0.95.
Proof.
  unfold conditional_gt, Rmin.
  destruct (Rgt_dec z 0.95), (Rle_dec z 0.95); lra.
Qed.

Lemma lambdaBar_calc_nonneg u_w u : 0 <= lambdaBar_calc u_w u.
Proof. apply sqrt_pos. Qed.

(** Called on the module-level displacement itself, as the script does,
    [lambdaBar_calc] is the effective stretch of its argument. *)
Lemma lambdaBar_calc_same (u : vfield) : lambdaBar_calc u u = lambdaBar_spec u.
Proof. reflexivity. Qed.

(** [zeta] as a function of the effective stretch, on both sides of the
    clamp. *)
Lemma zeta_bounds (lb : R) :
  0 <= lb ->
  let z := Rmin (lb / lambdaL) 0.95 in
  0 <= lambdaL / (3 * lb) * (z * (3 - z ^ 2) / (1 - z ^ 2)) <= zeta_max.
Proof.
  intros Hlb z.
  assert (HL : lambdaL = 5.12) by reflexivity.
  assert (Hmax : zeta_max = 2.0975 / 0.2925) by (unfold zeta_max; lra).
  destruct (Req_dec lb 0) as [-> | Hne].
  - assert (Hz : z = 0).
    { unfold z, Rmin. destruct (Rle_dec _ _); lra. }
    rewrite Hz.
    replace (lambdaL / (3 * 0) * (0 * (3 - 0 ^ 2) / (1 - 0 ^ 2))) with 0
      by (unfold Rdiv; ring).
    rewrite Hmax. lra.
  - assert (Hpos : 0 < lb) by lra.
    unfold z, Rmin. destruct (Rle_dec (lb / lambdaL) 0.95) as [Hle | Hgt].
    + set (y := lb / lambdaL) in *.
      assert (Hy : 0 < y) by (unfold y; apply Rdiv_lt_0_compat; lra).
      assert (Hlb' : lb = y * lambdaL) by (unfold y; field; lra).
      rewrite Hlb'.
      replace (lambdaL / (3 * (y * lambdaL)) * (y * (3 - y ^ 2) / (1 - y ^ 2)))
        with ((3 - y ^ 2) / (3 * (1 - y ^ 2))) by (field; nra).
      assert (Hd : 0 < 3 * (1 - y ^ 2)) by nra.
      split.
      * apply div_nonneg; nra.
      * apply div_le_of; [exact Hd|]. rewrite Hmax. nra.
    + assert (Hz : 0.95 * lambdaL < lb).
      { apply Rnot_le_lt in Hgt.
        apply Rmult_lt_reg_r with (/ lambdaL); [apply Rinv_0_lt_compat; lra|].
        rewrite Rmult_assoc, Rinv_r by lra. unfold Rdiv in Hgt. lra. }
      assert (Hk : 0.95 * (3 - 0.95 ^ 2) / (1 - 0.95 ^ 2)
                   = 0.95 * 2.0975 / 0.0975) by lra.
      rewrite Hk. set (k := 0.95 * 2.0975 / 0.0975).
      assert (Hkv : k = 0.95 * 2.0975 / 0.0975) by reflexivity.
      clearbody k.
      replace (lambdaL / (3 * lb) * k) with ((lambdaL * k) / (3 * lb))
        by (field; lra).
      split.
      * apply div_nonneg; [|lra]. rewrite HL, Hkv. lra.
      * apply div_le_of; [lra|]. rewrite Hmax, HL, Hkv. lra.
Qed.

(** C1, at an argument other than the module-level displacement.  With the
    module-level field at rest ([J = 1]) and the argument stretched by 2
    along one axis ([det F = 2]), [lambdaBar_calc] returns [sqrt 2]: it
    scales [C] with the module-level [J], not with the determinant of its
    argument, for which the effective stretch is [sqrt (2 * 2^(-2/3))]. *)
Theorem C1_lambdaBar_calc_reads_module_J :
  lambdaBar_calc zero_field stretched = sqrt 2 /\
  lambdaBar_spec stretched = sqrt (2 * Rpower 2 (-2/3)) /\
  lambdaBar_calc zero_field stretched <> lambdaBar_spec stretched.
Proof.
  assert (H1 : lambdaBar_calc zero_field stretched = sqrt 2).
  { unfold lambdaBar_calc, J_global, F_global.
    rewrite F_calc_zero, det_Identity3, Rpower_base_1. f_equal.
    cbv [F_calc stretched grad tr smul mmul transpose madd Identity3
         m11 m12 m13 m21 m22 m23 m31 m32 m33].
    field. }
  assert (H2 : lambdaBar_spec stretched = sqrt (2 * Rpower 2 (-2/3))).
  { unfold lambdaBar_spec.
    replace (det (F_calc stretched)) with 2
      by (cbv [det F_calc stretched grad madd Identity3
               m11 m12 m13 m21 m22 m23 m31 m32 m33]; ring).
    f_equal. generalize (Rpower 2 (-2/3)). intro r.
    cbv [F_calc stretched grad tr smul mmul transpose madd Identity3
         m11 m12 m13 m21 m22 m23 m31 m32 m33].
    field. }
  split; [exact H1|]. split; [exact H2|].
  rewrite H1, H2. intro Heq.
  pose proof Rpower_2_lt_1 as Hlt.
  assert (Hpos : 0 < Rpower 2 (-2/3)) by (unfold Rpower; apply exp_pos).
  apply sqrt_inj in Heq; lra.
Qed.

(** The real-valued expression of [Gshear_AB_calc]: it is
    [Gshear_0 * zeta] with [zeta = (lambdaL / (3 lambdaBar)) * beta(z')],
    [beta(z') = z' (3 - z'^2) / (1 - z'^2)] and
    [z' = min(lambdaBar / lambdaL, 0.95)]; the clamped ratio lies in
    [0, 0.95], so the denominator [1 - z'^2] is at least [0.0975], and the
    expression lies between 0 and [Gshear_0 * zeta_max].  Whether the
    computation has a value at all is the matter of [Partial]. *)
Lemma shear_modulus_clamped (u_w u : vfield) :
  let lambdaBar := lambdaBar_calc u_w u in
  let z' := Rmin (lambdaBar / lambdaL) 0.95 in
  let beta := z' * (3 - z' ^ 2) / (1 - z' ^ 2) in
  let zeta := lambdaL / (3 * lambdaBar) * beta in
  Gshear_AB_calc u_w u = Gshear_0 * zeta /\
  0 <= z' <= 0.95 /\
  0.0975 <= 1 - z' ^ 2 /\
  0 <= Gshear_AB_calc u_w u <= Gshear_0 * zeta_max.
Proof.
  intros lambdaBar z' beta zeta.
  assert (Hlb : 0 <= lambdaBar) by apply lambdaBar_calc_nonneg.
  assert (HG : Gshear_AB_calc u_w u = Gshear_0 * zeta).
  { unfold Gshear_AB_calc, zeta_calc. rewrite conditional_gt_Rmin.
    reflexivity. }
  assert (Hz : 0 <= z' <= 0.95).
  { split.
    - unfold z'. apply Rmin_glb; [|lra].
      apply div_nonneg; [exact Hlb| unfold lambdaL; lra].
    - apply Rmin_r. }
  repeat split; try tauto.
  - nra.
  - rewrite HG. apply Rmult_le_pos; [unfold Gshear_0; lra|].
    apply (zeta_bounds lambdaBar Hlb).
  - rewrite HG. apply Rmult_le_compat_l; [unfold Gshear_0; lra|].
    apply (zeta_bounds lambdaBar Hlb).
Qed.

(** C7: in the undeformed reference configuration the deformation gradient
    is the identity, its determinant is 1, the effective stretch is 1, and
    the Cauchy stress has no deviatoric part, whatever the pressure. *)
Theorem C7_reference_configuration (u_w : vfield) (p : R) :
  F_calc zero_field = Identity3 /\
  det (F_calc zero_field) = 1 /\
  lambdaBar_calc zero_field zero_field = 1 /\
  dev (T_calc u_w zero_field p) = Zero3.
Proof.
  split; [apply F_calc_zero|].
  split; [rewrite F_calc_zero; apply det_Identity3|].
  split.
  - unfold lambdaBar_calc, J_global, F_global.
    rewrite F_calc_zero, det_Identity3, Rpower_base_1.
    rewrite <- sqrt_1 at 2. f_equal.
    cbv [tr smul mmul transpose Identity3
         m11 m12 m13 m21 m22 m23 m31 m32 m33].
    field.
  - unfold T_calc. rewrite F_calc_zero, det_Identity3, Rpower_base_1.
    generalize (Gshear_AB_calc u_w zero_field). intro g.
    tensor_eq.
Qed.

Lemma G_spec_eq (u : vfield) : G_spec u = Gshear_AB_calc u u.
Proof.
  unfold G_spec, Gshear_AB_calc, zeta_calc.
  rewrite conditional_gt_Rmin, lambdaBar_calc_same. reflexivity.
Qed.

(** Called on the module-level fields themselves, as the script does,
    [T_calc] and [Tmat_calc] are the stresses of the text:
    [(1/J) G(u) dev(J^(-2/3) F F^T) - p I] and [J T(u,p) F^-T]. *)
Lemma stress_formulas_on_module_field (u : vfield) (p : R) :
  T_calc u u p = T_spec u p /\ Tmat_calc u u p = P_spec u p.
Proof.
  assert (HT : T_calc u u p = T_spec u p).
  { unfold T_calc, T_spec. rewrite G_spec_eq.
    generalize (Gshear_AB_calc u u) (Rpower (det (F_calc u)) (-2/3))
      (1 / det (F_calc u)) (F_calc u).
    intros g r j F. tensor_eq. }
  split; [exact HT|].
  unfold Tmat_calc, P_spec. rewrite HT, inv_transpose.
  generalize (T_spec u p) (transpose (inv (F_calc u))) (det (F_calc u)).
  intros T X j. tensor_eq.
Qed.

End KinematicsFacts.

(** ** Properties of the load-stepping driver *)

Module DriverFacts.

Import Driver.
Local Open Scope Q_scope.

(** *** Item assignment *)

Lemma setitem_Some a i v :
  (i < List.length a)%nat ->
  setitem a i v = Some (firstn i a ++ v :: skipn (S i) a).
Proof.
  intro H. unfold setitem.
  destruct (Nat.ltb_spec i (List.length a)); [reflexivity | lia].
Qed.

Lemma setitem_inv a i v a' :
  setitem a i v = Some a' ->
  (i < List.length a)%nat /\ a' = firstn i a ++ v :: skipn (S i) a.
Proof.
  unfold setitem. destruct (Nat.ltb_spec i (List.length a)); [|discriminate].
  intro E. injection E as <-. split; [assumption | reflexivity].
Qed.

Lemma setitem_length a i v a' :
  setitem a i v = Some a' -> List.length a' = List.length a.
Proof.
  intro E. apply setitem_inv in E as [Hi ->].
  rewrite length_app. cbn [List.length].
  rewrite length_firstn, length_skipn. lia.
Qed.

Lemma setitem_nth_same a i v a' d :
  setitem a i v = Some a' -> nth i a' d = v.
Proof.
  intro E. apply setitem_inv in E as [Hi ->].
  rewrite app_nth2; rewrite length_firstn, Nat.min_l by lia; [|lia].
  now rewrite Nat.sub_diag.
Qed.

Lemma setitem_nth_other a i v a' k d :
  setitem a i v = Some a' -> k <> i -> nth k a' d = nth k a d.
Proof.
  intros E Hk. apply setitem_inv in E as [Hi ->].
  rewrite <- (firstn_skipn i a) at 3.
  destruct (Nat.lt_ge_cases k i) as [Hlt | Hge].
  - rewrite !app_nth1 by (rewrite length_firstn; lia). reflexivity.
  - rewrite !app_nth2 by (rewrite length_firstn; lia).
    rewrite length_firstn, Nat.min_l by lia.
    destruct (k - i)%nat as [|m] eqn:Em; [lia|].
    cbn [nth].
    replace (skipn (S i) a) with (skipn 1 (skipn i a))
      by (rewrite skipn_skipn; f_equal; lia).
    destruct (skipn i a) as [|x l]; cbn [skipn nth];
      [now destruct m | reflexivity].
Qed.


(** *** The clock of the loop *)

Lemma cond_tseq_true :
  forallb (fun j => Qle_bool (round (tseq j + dt) 9) Ttot) (seq 0 numSteps)
  = true.
Proof. vm_compute. reflexivity. Qed.

Lemma cond_tseq_last : Qle_bool (round (tseq numSteps + dt) 9) Ttot = false.
Proof. vm_compute. reflexivity. Qed.

Lemma cond_tseq_lt j :
  (j < numSteps)%nat -> Qle_bool (round (tseq j + dt) 9) Ttot = true.
Proof.
  intro H. pose proof cond_tseq_true as A.
  rewrite forallb_forall in A. apply A, in_seq. lia.
Qed.

Lemma tseq_eq j : tseq j == inject_Z (Z.of_nat j) * dt.
Proof.
  induction j as [|j IH].
  - cbn. ring.
  - cbn [tseq]. rewrite IH, Nat2Z.inj_succ. unfold Z.succ.
    rewrite inject_Z_plus. ring.
Qed.

Lemma dt_eq : dt == 1 # 50.
Proof. reflexivity. Qed.

(** The imposed stretch at the time of step [i] is [1 + i/50]. *)
Lemma stretch_at_tseq i :
  (L0 + dispTot * tseq i / Ttot) / L0 == 1 + inject_Z (Z.of_nat i) * (1 # 50).
Proof.
  rewrite tseq_eq, dt_eq. unfold dispTot, Ttot, stretch, rate, L0. field.
Qed.

Section Run.

Variable W : Type.
Variable w0 : W.
Variable solve : W -> Q -> solve_result W.
Variable assemble_P11 : W -> Q.
Variable now : nat -> Q.

Local Abbreviation body := (Driver.body W solve assemble_P11 now).
Local Abbreviation loop := (Driver.loop W solve assemble_P11 now).
Local Abbreviation script := (Driver.script W w0 solve assemble_P11 now).
Local Abbreviation prologue := (Driver.prologue W w0 now).
Local Abbreviation after_steps :=
  (Driver.after_steps W w0 solve assemble_P11 now).
Local Abbreviation finish := (Driver.finish W now).
Local Abbreviation end_report := (Driver.end_report W now).
Local Abbreviation head_invariant := (Driver.head_invariant W w0 now).

(** The value the solver reads from the ramp in the pass that starts in
    [s]. *)
Local Abbreviation bc_of s := (eval (set_expr_t (dispRamp s) (t s + dt))).

(** *** One pass through the body *)

Lemma body_Raised (s : state W) w' :
  solve (w s) (bc_of s) = Raised w' ->
  body s = Break (mkState (t s + dt) (S (ii s))
                    (set_expr_t (dispRamp s) (t s + dt)) w' (w_old s)
                    (iter s) (timeHist0 s) (timeHist1 s) (file_results s)
                    (stdout s) (clock s) (startTime s)
                    (solver_calls s ++ [(w s, bc_of s)]) (figure s)).
Proof.
  intro E. unfold Driver.body, call_solver. cbn. rewrite E. reflexivity.
Qed.

Lemma body_Returned (s : state W) w' it c :
  solve (w s) (bc_of s) = Returned w' it c ->
  body s =
  match setitem (timeHist0 s) (S (ii s))
          ((L0 + dispTot * (t s + dt) / Ttot) / L0) with
  | None =>
      Error (mkState (t s + dt) (S (ii s))
               (set_expr_t (dispRamp s) (t s + dt)) w' w' (Some it)
               (timeHist0 s) (timeHist1 s)
               (file_results s
                  ++ map (fun name => (name, t s + dt, w')) field_names)
               (stdout s) (clock s) (startTime s)
               (solver_calls s ++ [(w s, bc_of s)]) (figure s))
  | Some a0 =>
      match setitem (timeHist1 s) (S (ii s))
              (2 * assemble_P11 w' / (W0 * T0)) with
      | None =>
          Error (mkState (t s + dt) (S (ii s))
                   (set_expr_t (dispRamp s) (t s + dt)) w' w' (Some it)
                   a0 (timeHist1 s)
                   (file_results s
                      ++ map (fun name => (name, t s + dt, w')) field_names)
                   (stdout s) (clock s) (startTime s)
                   (solver_calls s ++ [(w s, bc_of s)]) (figure s))
      | Some a1 =>
          Next (mkState (t s + dt) (S (ii s))
                  (set_expr_t (dispRamp s) (t s + dt)) w' w' (Some it)
                  a0 a1
                  (file_results s
                     ++ map (fun name => (name, t s + dt, w')) field_names)
                  (((stdout s
                       ++ [Progress step (round (t s + dt) 4) (now (clock s))])
                      ++ [Iterations it]) ++ [Blank])
                  (S (clock s)) (startTime s)
                  (solver_calls s ++ [(w s, bc_of s)]) (figure s))
      end
  end.
Proof.
  intro E. unfold Driver.body, call_solver. cbn. rewrite E. cbn.
  destruct (setitem (timeHist0 s) _ _) as [a0|]; [|reflexivity]. cbn.
  destruct (setitem (timeHist1 s) _ _) as [a1|]; [|reflexivity]. cbn.
  reflexivity.
Qed.


(** *** The loop-head invariant *)

Lemma cond_head j (s : state W) :
  head_invariant j s -> cond s = true -> (j < numSteps)%nat.
Proof.
  intros H C. pose proof (head_le _ _ _ _ _ H) as Hle.
  destruct (Nat.eq_dec j numSteps) as [-> | Hne]; [|lia].
  unfold Driver.cond in C. rewrite (head_t _ _ _ _ _ H), cond_tseq_last in C.
  discriminate.
Qed.

Lemma head_cond j (s : state W) :
  head_invariant j s -> (j < numSteps)%nat -> cond s = true.
Proof.
  intros H Hlt. unfold Driver.cond. rewrite (head_t _ _ _ _ _ H).
  now apply cond_tseq_lt.
Qed.

Lemma head_bc j (s : state W) :
  head_invariant j s -> bc_of s = dispTot * tseq (S j) / Ttot.
Proof.
  intro H. rewrite (head_ramp _ _ _ _ _ H), (head_t _ _ _ _ _ H). reflexivity.
Qed.

Lemma prologue_head : exists s0, prologue = Next s0 /\ head_invariant 0 s0.
Proof.
  eexists. split; [reflexivity|].
  constructor; try reflexivity.
  - unfold numSteps. lia.
  - intros i Hi.
    destruct i as [|i]; [lia|].
    change (nth i (zeros numSteps) 0 = 0 /\ nth (S i) (zeros totSteps) 0 = 0).
    split; apply nth_repeat.
  - intros i Hi. lia.
Qed.


Lemma progress_count_app l l' :
  progress_count (l ++ l') = (progress_count l + progress_count l')%nat.
Proof.
  induction l as [|x l IH]; [reflexivity|].
  destruct x; cbn; rewrite IH; reflexivity.
Qed.

Lemma last_app_cons {A} (l l' : list A) x d :
  last (l ++ x :: l') d = last (x :: l') d.
Proof.
  induction l as [|y l IH]; [reflexivity|].
  cbn [app]. rewrite <- IH. cbn [last].
  destruct (l ++ x :: l') eqn:E; [now destruct l | reflexivity].
Qed.

(** What a pass that reaches the end of the body changes. *)
Lemma body_Next_inv (s s' : state W) :
  body s = Next s' ->
  exists w' it c a0 a1,
    solve (w s) (bc_of s) = Returned w' it c /\
    setitem (timeHist0 s) (S (ii s))
      ((L0 + dispTot * (t s + dt) / Ttot) / L0) = Some a0 /\
    setitem (timeHist1 s) (S (ii s))
      (2 * assemble_P11 w' / (W0 * T0)) = Some a1 /\
    s' = mkState (t s + dt) (S (ii s))
           (set_expr_t (dispRamp s) (t s + dt)) w' w' (Some it) a0 a1
           (file_results s
              ++ map (fun name => (name, t s + dt, w')) field_names)
           (((stdout s
                ++ [Progress step (round (t s + dt) 4) (now (clock s))])
               ++ [Iterations it]) ++ [Blank])
           (S (clock s)) (startTime s)
           (solver_calls s ++ [(w s, bc_of s)]) (figure s).
Proof.
  intro E.
  destruct (solve (w s) (bc_of s)) as [w' | w' it c] eqn:Es.
  - rewrite (body_Raised _ _ Es) in E. discriminate.
  - rewrite (body_Returned _ _ _ _ Es) in E.
    destruct (setitem (timeHist0 s) _ _) as [a0|] eqn:E0; [|discriminate].
    destruct (setitem (timeHist1 s) _ _) as [a1|] eqn:E1; [|discriminate].
    injection E as <-. exists w', it, c, a0, a1. auto.
Qed.

(** What a pass that breaks out of the loop changes. *)
Lemma body_Break_inv (s s' : state W) :
  body s = Break s' ->
  exists w',
    solve (w s) (bc_of s) = Raised w' /\
    s' = mkState (t s + dt) (S (ii s))
           (set_expr_t (dispRamp s) (t s + dt)) w' (w_old s)
           (iter s) (timeHist0 s) (timeHist1 s) (file_results s)
           (stdout s) (clock s) (startTime s)
           (solver_calls s ++ [(w s, bc_of s)]) (figure s).
Proof.
  intro E.
  destruct (solve (w s) (bc_of s)) as [w' | w' it c] eqn:Es.
  - rewrite (body_Raised _ _ Es) in E. injection E as <-. eauto.
  - rewrite (body_Returned _ _ _ _ Es) in E.
    destruct (setitem (timeHist0 s) _ _) as [a0|]; [|discriminate].
    destruct (setitem (timeHist1 s) _ _) as [a1|]; discriminate.
Qed.

(** With the counter below [numSteps] the item assignments are in range. *)
Lemma body_no_Error j (s s' : state W) :
  head_invariant j s -> (j < numSteps)%nat -> body s <> Error s'.
Proof.
  intros H Hlt E.
  destruct (solve (w s) (bc_of s)) as [w' | w' it c] eqn:Es.
  - rewrite (body_Raised _ _ Es) in E. discriminate.
  - rewrite (body_Returned _ _ _ _ Es) in E.
    rewrite (head_ii _ _ _ _ _ H) in E.
    rewrite (setitem_Some (timeHist0 s)) in E
      by (rewrite (head_len0 _ _ _ _ _ H); unfold totSteps; lia).
    rewrite (setitem_Some (timeHist1 s)) in E
      by (rewrite (head_len1 _ _ _ _ _ H); unfold totSteps; lia).
    discriminate.
Qed.

Lemma head_step j (s s' : state W) :
  head_invariant j s -> cond s = true -> body s = Next s' ->
  head_invariant (S j) s'.
Proof.
  intros H C E.
  pose proof (cond_head _ _ H C) as Hlt.
  destruct (body_Next_inv _ _ E) as (w' & it & c & a0 & a1 & Es & E0 & E1 & ->).
  destruct H as [Hii Hle Ht Hramp Hwold Hl0 Hl1 Hz Hf Hs Hcalls Hp Hck Hst
                 Hfig Hwr].
  rewrite Hii in E0, E1. rewrite Ht in E0.
  constructor; cbn [ii t dispRamp w w_old timeHist0 timeHist1 solver_calls
                    stdout clock startTime figure file_results].
  - now rewrite Hii.
  - lia.
  - now rewrite Ht.
  - rewrite Hramp, Ht. reflexivity.
  - reflexivity.
  - now rewrite (setitem_length _ _ _ _ E0).
  - now rewrite (setitem_length _ _ _ _ E1).
  - intros i Hi.
    rewrite (setitem_nth_other _ _ _ _ i 0 E0) by lia.
    rewrite (setitem_nth_other _ _ _ _ i 0 E1) by lia.
    apply Hz. lia.
  - rewrite (setitem_nth_other _ _ _ _ 0%nat 0 E0) by lia. exact Hf.
  - intros i Hi. destruct (Nat.eq_dec i (S j)) as [-> | Hne].
    + rewrite (setitem_nth_same _ _ _ _ 0 E0). reflexivity.
    + rewrite (setitem_nth_other _ _ _ _ i 0 E0) by lia. apply Hs. lia.
  - rewrite map_app, Hcalls, seq_S, map_app. cbn [map snd].
    rewrite Hramp, Ht. reflexivity.
  - rewrite !progress_count_app. cbn. lia.
  - now rewrite Hck.
  - exact Hst.
  - exact Hfig.
  - rewrite map_app. cbn [map field_names snd app].
    rewrite last_app_cons. reflexivity.
Qed.

Lemma after_steps_S_inv j (s' : state W) :
  after_steps (S j) = Some s' ->
  exists s, after_steps j = Some s /\ cond s = true /\ body s = Next s'.
Proof.
  cbn [Driver.after_steps].
  destruct (after_steps j) as [s|]; [|discriminate].
  destruct (cond s) eqn:C; [|discriminate].
  destruct (body s) as [s1|s1|s1] eqn:B; try discriminate.
  intro E. injection E as <-. eauto.
Qed.

Lemma after_steps_head j (s : state W) :
  after_steps j = Some s -> head_invariant j s.
Proof.
  revert s. induction j as [|j IH]; intros s E.
  - destruct prologue_head as (s0 & P & H).
    cbn [Driver.after_steps] in E. rewrite P in E. injection E as <-. exact H.
  - destruct (after_steps_S_inv _ _ E) as (s1 & E1 & C & B).
    eapply head_step; eauto.
Qed.


(** *** The loop and the script *)

Lemma loop_after j (s s0 : state W) fuel :
  prologue = Next s0 -> after_steps j = Some s ->
  loop (j + fuel) s0 = loop fuel s.
Proof.
  intro P. revert s fuel. induction j as [|j IH]; intros s fuel E.
  - cbn [Driver.after_steps] in E. rewrite P in E. injection E as <-.
    reflexivity.
  - destruct (after_steps_S_inv _ _ E) as (s1 & E1 & C & B).
    replace (S j + fuel)%nat with (j + S fuel)%nat by lia.
    rewrite (IH _ _ E1). cbn [Driver.loop]. rewrite C, B. reflexivity.
Qed.

Lemma script_after j (s : state W) fuel :
  after_steps j = Some s ->
  script (j + fuel) =
  match loop fuel s with
  | Exit how s' => Exit how (finish s')
  | r => r
  end.
Proof.
  intro E. destruct prologue_head as (s0 & P & _).
  unfold Driver.script. rewrite P, (loop_after _ _ _ _ P E). reflexivity.
Qed.

(** How the loop can have been left. *)
Lemma loop_Exit_inv fuel : forall j (s : state W) how s',
  after_steps j = Some s -> loop fuel s = Exit how s' ->
  (how = CondFalse /\ after_steps numSteps = Some s') \/
  (how = BreakStmt /\
   exists k sk, (k < numSteps)%nat /\ after_steps k = Some sk /\
                body sk = Break s').
Proof.
  induction fuel as [|fuel IH]; intros j s how s' E L; [discriminate|].
  pose proof (after_steps_head _ _ E) as H.
  cbn [Driver.loop] in L. destruct (cond s) eqn:C.
  - destruct (body s) as [s1|s1|s1] eqn:B.
    + apply (IH (S j) s1); [|exact L].
      cbn [Driver.after_steps]. rewrite E, C, B. reflexivity.
    + injection L as <- <-. right. split; [reflexivity|].
      exists j, s. split; [eapply cond_head; eauto | auto].
    + discriminate.
  - injection L as <- <-. left. split; [reflexivity|].
    destruct (Nat.eq_dec j numSteps) as [-> | Hne]; [exact E|].
    pose proof (head_le _ _ _ _ _ H).
    rewrite (head_cond _ _ H) in C by lia. discriminate.
Qed.

Lemma script_Exit_inv fuel how (sf : state W) :
  script fuel = Exit how sf ->
  exists s', sf = finish s' /\
    ((how = CondFalse /\ after_steps numSteps = Some s') \/
     (how = BreakStmt /\
      exists k sk, (k < numSteps)%nat /\ after_steps k = Some sk /\
                   body sk = Break s')).
Proof.
  destruct prologue_head as (s0 & P & _).
  unfold Driver.script. rewrite P.
  destruct (loop fuel s0) as [how' s'| |] eqn:L; try discriminate.
  intro E. injection E as <- <-. exists s'. split; [reflexivity|].
  apply (loop_Exit_inv fuel 0 s0); [|exact L].
  cbn [Driver.after_steps]. now rewrite P.
Qed.

(** With fuel for the passes that remain and the last test, the loop is
    left by its condition or by the [break]. *)
Lemma loop_terminates n : forall j (s : state W) fuel,
  after_steps j = Some s -> (j + n = numSteps)%nat -> (n < fuel)%nat ->
  exists how s', loop fuel s = Exit how s'.
Proof.
  induction n as [|n IH]; intros j s fuel E Hn Hf;
    (destruct fuel as [|fuel]; [lia|]);
    pose proof (after_steps_head _ _ E) as H; cbn [Driver.loop].
  - destruct (cond s) eqn:C; [|eauto].
    pose proof (cond_head _ _ H C). lia.
  - rewrite (head_cond _ _ H) by lia.
    destruct (body s) as [s1|s1|s1] eqn:B.
    + apply (IH (S j)); [|lia|lia].
      cbn [Driver.after_steps]. rewrite E, (head_cond _ _ H), B by lia.
      reflexivity.
    + eauto.
    + exfalso. eapply (body_no_Error j); eauto. lia.
Qed.

(** A pass whose solve returns reaches the end of the body. *)
Lemma body_Returned_head j (s : state W) w' it c :
  head_invariant j s -> (j < numSteps)%nat ->
  solve (w s) (bc_of s) = Returned w' it c ->
  exists s', body s = Next s'.
Proof.
  intros H Hlt Es. pose proof (body_Returned _ _ _ _ Es) as B.
  rewrite (head_ii _ _ _ _ _ H) in B.
  rewrite (setitem_Some (timeHist0 s)) in B
    by (rewrite (head_len0 _ _ _ _ _ H); unfold totSteps; lia).
  rewrite (setitem_Some (timeHist1 s)) in B
    by (rewrite (head_len1 _ _ _ _ _ H); unfold totSteps; lia).
  eexists. exact B.
Qed.

(** With a solver that never raises, every one of the [numSteps] passes is
    made, and the loop is left by its condition. *)
Lemma after_steps_total :
  (forall x bc, exists w' it c, solve x bc = Returned w' it c) ->
  forall j, (j <= numSteps)%nat -> exists s, after_steps j = Some s.
Proof.
  intros R j. induction j as [|j IH]; intro Hj.
  - destruct prologue_head as (s0 & P & _). exists s0.
    cbn [Driver.after_steps]. now rewrite P.
  - destruct IH as (s & E); [lia|].
    pose proof (after_steps_head _ _ E) as H.
    destruct (R (w s) (bc_of s)) as (w' & it & c & Es).
    destruct (body_Returned_head j s w' it c H) as (s' & B); [lia | exact Es |].
    exists s'. cbn [Driver.after_steps].
    rewrite E, (head_cond _ _ H), B by lia. reflexivity.
Qed.

Lemma script_never_raised fuel :
  (forall x bc, exists w' it c, solve x bc = Returned w' it c) ->
  (numSteps < fuel)%nat ->
  exists s, after_steps numSteps = Some s /\
            script fuel = Exit CondFalse (finish s).
Proof.
  intros R Hf. destruct (after_steps_total R numSteps) as (s & E); [lia|].
  exists s. split; [exact E|].
  pose proof (after_steps_head _ _ E) as H.
  replace fuel with (numSteps + S (fuel - S numSteps))%nat by lia.
  rewrite (script_after _ _ _ E). cbn [Driver.loop].
  unfold Driver.cond. rewrite (head_t _ _ _ _ _ H), cond_tseq_last.
  reflexivity.
Qed.

Lemma script_terminates fuel :
  (numSteps < fuel)%nat -> exists how s, script fuel = Exit how s.
Proof.
  intro Hf. destruct prologue_head as (s0 & P & _).
  destruct (loop_terminates numSteps 0 s0 fuel) as (how & s' & L);
    [cbn [Driver.after_steps]; now rewrite P | lia | exact Hf |].
  exists how, (finish s'). unfold Driver.script. now rewrite P, L.
Qed.


(** What the end of the script adds to the state the loop was left in. *)
Lemma finish_eq (s : state W) :
  finish s =
  mkState (t s) (ii s) (dispRamp s) (w s) (w_old s) (iter s) (timeHist0 s)
    (timeHist1 s) (file_results s)
    (stdout s ++ end_banner (now (clock s) - startTime s))
    (S (clock s)) (startTime s) (solver_calls s)
    (Some (timeHist0 s, map (fun x => x / 1000) (timeHist1 s))).
Proof.
  cbv [Driver.finish read_clock print set_figure end_banner
       t ii dispRamp w w_old iter timeHist0 timeHist1 file_results stdout
       clock startTime solver_calls figure].
  rewrite <- !app_assoc. reflexivity.
Qed.

Lemma finish_ii (s : state W) : ii (finish s) = ii s.
Proof. rewrite finish_eq. reflexivity. Qed.

Lemma end_report_eq (s : state W) :
  end_report s = end_banner (now (clock s) - startTime s).
Proof.
  unfold Driver.end_report. rewrite finish_eq. cbn [stdout].
  rewrite skipn_app, skipn_all, Nat.sub_diag. reflexivity.
Qed.

(** C3: when the solve of a load step raises, the loop is left at once by
    its [break].  The script ends with the state of the failed pass: the
    failed call is the last call of the solver, every call was made once, at
    its own multiple of the fixed increment, and the stretch and stress
    series, the results file, the printed lines and [w_old] are those of the
    last converged step; the closing banner is still printed and the curve
    still drawn. *)
Theorem C3_solver_failure_stops_the_run
    (j : nat) (s : state W) (w' : W) (fuel : nat) :
  after_steps j = Some s ->
  (j < numSteps)%nat ->
  solve (w s) (dispTot * tseq (S j) / Ttot) = Raised w' ->
  (j < fuel)%nat ->
  exists s',
    body s = Break s' /\
    script fuel = Exit BreakStmt (finish s') /\
    ii s' = S j /\ t s' = t s + dt /\
    solver_calls (finish s')
      = solver_calls s ++ [(w s, dispTot * tseq (S j) / Ttot)] /\
    map snd (solver_calls (finish s'))
      = map (fun k => dispTot * tseq k / Ttot) (seq 1 (S j)) /\
    timeHist0 (finish s') = timeHist0 s /\
    timeHist1 (finish s') = timeHist1 s /\
    file_results (finish s') = file_results s /\
    w_old (finish s') = w_old s /\
    stdout (finish s')
      = stdout s ++ end_banner (now (clock s) - startTime s) /\
    figure (finish s')
      = Some (timeHist0 s, map (fun x => x / 1000) (timeHist1 s)).
Proof.
  intros E Hlt Es Hf.
  pose proof (after_steps_head _ _ E) as H.
  rewrite <- (head_bc _ _ H) in Es.
  pose proof (body_Raised _ _ Es) as B.
  eexists. split; [exact B|].
  split.
  { replace fuel with (j + S (fuel - S j))%nat by lia.
    rewrite (script_after _ _ _ E). cbn [Driver.loop].
    rewrite (head_cond _ _ H Hlt), B. reflexivity. }
  rewrite finish_eq.
  cbn [ii t solver_calls timeHist0 timeHist1 file_results w_old stdout
       figure clock startTime].
  rewrite (head_bc _ _ H).
  repeat split; try reflexivity.
  - now rewrite (head_ii _ _ _ _ _ H).
  - rewrite map_app, (head_calls _ _ _ _ _ H), seq_S, map_app. reflexivity.
Qed.

(** C4: at the head of every pass [w_old] is the converged [w] of the last
    increment, the one last written to the results.  A pass whose solve
    returns ends with [w_old] equal to the [w] it converged to; a pass whose
    solve raises leaves [w_old] as it was, and so does the rest of the
    script. *)
Theorem C4_w_old_is_last_converged (j : nat) (s : state W) :
  after_steps j = Some s ->
  (j < numSteps)%nat ->
  w_old s = w s /\
  last (map snd (file_results s)) w0 = w_old s /\
  match solve (w s) (dispTot * tseq (S j) / Ttot) with
  | Returned w' _ _ =>
      exists s', body s = Next s' /\ after_steps (S j) = Some s' /\
                 w s' = w' /\ w_old s' = w'
  | Raised w' =>
      exists s', body s = Break s' /\ w s' = w' /\ w_old s' = w_old s /\
                 w_old (finish s') = w_old s
  end.
Proof.
  intros E Hlt.
  pose proof (after_steps_head _ _ E) as H.
  split; [exact (head_w_old _ _ _ _ _ H)|].
  split; [rewrite (head_w_old _ _ _ _ _ H); exact (head_written _ _ _ _ _ H)|].
  rewrite <- (head_bc _ _ H).
  destruct (solve (w s) (bc_of s)) as [w' | w' it c] eqn:Es.
  - eexists. split; [exact (body_Raised _ _ Es)|].
    rewrite finish_eq. repeat split.
  - pose proof (body_Returned _ _ _ _ Es) as B.
    rewrite (head_ii _ _ _ _ _ H) in B.
    rewrite (setitem_Some (timeHist0 s)) in B
      by (rewrite (head_len0 _ _ _ _ _ H); unfold totSteps; lia).
    rewrite (setitem_Some (timeHist1 s)) in B
      by (rewrite (head_len1 _ _ _ _ _ H); unfold totSteps; lia).
    eexists. split; [exact B|].
    split; [|split; reflexivity].
    cbn [Driver.after_steps]. rewrite E, (head_cond _ _ H Hlt), B. reflexivity.
Qed.


(** C5, as the script has it: on completion it prints the closing banner
    with the elapsed real time and nothing else, the same five lines
    whether the loop was left by its condition or by the [break]; they state
    neither which it was nor a number of steps.  The steps that converged
    are the progress lines printed during the loop: all [numSteps] when the
    target time was reached, one less than the counter after a [break]. *)
Theorem C5_closing_banner_only (fuel : nat) (how : loop_exit) (sf : state W) :
  script fuel = Exit how sf ->
  exists s,
    sf = finish s /\
    end_report s = end_banner (now (clock s) - now 0) /\
    stdout sf = stdout s ++ end_report s /\
    progress_count (end_report s) = 0%nat /\
    match how with
    | CondFalse =>
        ii sf = numSteps /\ progress_count (stdout sf) = numSteps
    | BreakStmt =>
        (1 <= ii sf <= numSteps)%nat /\
        progress_count (stdout sf) = pred (ii sf)
    end.
Proof.
  intro E. destruct (script_Exit_inv _ _ _ E) as (s & -> & Hcase).
  exists s. split; [reflexivity|].
  assert (Hst : startTime s = now 0).
  { destruct Hcase as [[_ A] | [_ (k & sk & Hk & A & B)]].
    - exact (head_start _ _ _ _ _ (after_steps_head _ _ A)).
    - destruct (body_Break_inv _ _ B) as (w' & _ & ->). cbn [startTime].
      exact (head_start _ _ _ _ _ (after_steps_head _ _ A)). }
  rewrite end_report_eq, Hst. split; [reflexivity|].
  rewrite finish_eq. cbn [stdout ii]. rewrite Hst. split; [reflexivity|].
  split; [reflexivity|].
  rewrite progress_count_app, Nat.add_0_r.
  destruct Hcase as [[-> A] | [-> (k & sk & Hk & A & B)]].
  - pose proof (after_steps_head _ _ A) as H.
    split; [exact (head_ii _ _ _ _ _ H) | exact (head_progress _ _ _ _ _ H)].
  - pose proof (after_steps_head _ _ A) as H.
    destruct (body_Break_inv _ _ B) as (w' & _ & ->). cbn [ii stdout].
    rewrite (head_ii _ _ _ _ _ H), (head_progress _ _ _ _ _ H).
    split; [lia | reflexivity].
Qed.


(** C9: the ramp is [dispTot*t/Ttot], 0 at [t = 0] and [dispTot] at
    [t = Ttot].  At the head of every pass its time is the driver's; the
    pass first advances the time by [dt], then sets the ramp's time to the
    new time, then calls the solver, which reads the ramp at the new time:
    every call of the run was made with the value at its own step. *)
Theorem C9_ramp_follows_the_time (j : nat) (s : state W) :
  after_steps j = Some s ->
  (forall tm, eval (mkExpression tm dispTot Ttot) = dispTot * tm / Ttot) /\
  eval (mkExpression 0 dispTot Ttot) == 0 /\
  eval (mkExpression Ttot dispTot Ttot) == dispTot /\
  dispRamp s = mkExpression (t s) dispTot Ttot /\
  map snd (solver_calls s)
    = map (fun k => dispTot * tseq k / Ttot) (seq 1 j) /\
  let s' := state_of (body s) in
  t s' = t s + dt /\
  dispRamp s' = mkExpression (t s') dispTot Ttot /\
  solver_calls s' = solver_calls s ++ [(w s, eval (dispRamp s'))].
Proof.
  intro E. pose proof (after_steps_head _ _ E) as H.
  split; [reflexivity|].
  split; [reflexivity|].
  split; [reflexivity|].
  split; [rewrite (head_t _ _ _ _ _ H); exact (head_ramp _ _ _ _ _ H)|].
  split; [exact (head_calls _ _ _ _ _ H)|].
  assert (R : set_expr_t (dispRamp s) (t s + dt)
              = mkExpression (t s + dt) dispTot Ttot)
    by (rewrite (head_ramp _ _ _ _ _ H); reflexivity).
  destruct (solve (w s) (bc_of s)) as [w' | w' it c] eqn:Es.
  - rewrite (body_Raised _ _ Es). cbn [state_of t dispRamp solver_calls].
    rewrite R. repeat split.
  - rewrite (body_Returned _ _ _ _ Es).
    destruct (setitem (timeHist0 s) _ _) as [a0|];
      [destruct (setitem (timeHist1 s) _ _) as [a1|]|];
      cbn [state_of t dispRamp solver_calls]; rewrite R; repeat split.
Qed.

(** C10: both series are allocated as [numSteps + 1] zeros and keep that
    length.  After a [break] in the pass that follows converged step [k],
    entry [k] of the stretch series is [1 + k/50], every entry after it is 0
    in both series, and the curve is drawn from the whole of both series,
    zeros included. *)
Theorem C10_trailing_zeros_after_abort (fuel : nat) (sf : state W) :
  script fuel = Exit BreakStmt sf ->
  let k := pred (ii sf) in
  timeHist0 (Driver.start W w0 now) = repeat 0 (numSteps + 1) /\
  timeHist1 (Driver.start W w0 now) = repeat 0 (numSteps + 1) /\
  (k < numSteps)%nat /\
  List.length (timeHist0 sf) = (numSteps + 1)%nat /\
  List.length (timeHist1 sf) = (numSteps + 1)%nat /\
  nth k (timeHist0 sf) 0 == 1 + inject_Z (Z.of_nat k) * (1 # 50) /\
  (forall i, (k < i)%nat ->
     nth i (timeHist0 sf) 0 = 0 /\ nth i (timeHist1 sf) 0 = 0) /\
  figure sf = Some (timeHist0 sf, map (fun x => x / 1000) (timeHist1 sf)).
Proof.
  intros E k. destruct (script_Exit_inv _ _ _ E) as (s & Hs & Hcase).
  destruct Hcase as [[D _] | [_ (j & sj & Hj & A & B)]]; [discriminate|].
  pose proof (after_steps_head _ _ A) as H.
  destruct (body_Break_inv _ _ B) as (w' & _ & Hs').
  assert (Hk : k = j).
  { unfold k. rewrite Hs, finish_eq, Hs'. cbn [ii].
    now rewrite (head_ii _ _ _ _ _ H). }
  assert (H0 : timeHist0 sf = timeHist0 sj)
    by (rewrite Hs, finish_eq, Hs'; reflexivity).
  assert (H1 : timeHist1 sf = timeHist1 sj)
    by (rewrite Hs, finish_eq, Hs'; reflexivity).
  rewrite Hk, H0, H1.
  split; [reflexivity|]. split; [reflexivity|]. split; [exact Hj|].
  split; [rewrite (head_len0 _ _ _ _ _ H); reflexivity|].
  split; [rewrite (head_len1 _ _ _ _ _ H); reflexivity|].
  split.
  { destruct j as [|j].
    - rewrite (head_first _ _ _ _ _ H). reflexivity.
    - rewrite (head_stretch _ _ _ _ _ H) by lia. apply stretch_at_tseq. }
  split; [exact (head_zeros _ _ _ _ _ H)|].
  rewrite Hs, finish_eq, Hs'. reflexivity.
Qed.

End Run.


(** *** The theorems on sample runs *)

(** The sample solver with [k = 0] never raises: its run makes all the
    passes and is left by the loop condition. *)
Lemma sample_solve_0_returns x bc :
  exists w' it c, sample_solve 0 x bc = Returned w' it c.
Proof. exists (S x), 3%nat, true. reflexivity. Qed.

Lemma sample_full_head (now : nat -> Q) :
  after_steps nat 0%nat (sample_solve 0) sample_assemble now numSteps
  = Some (sample_head 0 now numSteps).
Proof.
  destruct (after_steps_total nat 0%nat (sample_solve 0) sample_assemble now
              sample_solve_0_returns numSteps (Nat.le_refl _)) as (s & E).
  unfold sample_head. rewrite E. reflexivity.
Qed.

Lemma sample_full_run (now : nat -> Q) :
  script nat 0%nat (sample_solve 0) sample_assemble now (S numSteps)
  = Exit CondFalse (finish nat now (sample_head 0 now numSteps)).
Proof.
  destruct (script_never_raised nat 0%nat (sample_solve 0) sample_assemble now
              (S numSteps) sample_solve_0_returns (Nat.lt_succ_diag_r _))
    as (s & E & R).
  unfold sample_head. rewrite E. exact R.
Qed.

(** C3 on the run whose fourth solve raises. *)
Lemma C3_solver_failure_sample :
  after_steps nat 0%nat (sample_solve 4) sample_assemble ticking 3
    = Some (sample_head 4 ticking 3) /\
  (3 < numSteps)%nat /\
  sample_solve 4 (w (sample_head 4 ticking 3)) (dispTot * tseq 4 / Ttot)
    = Raised 1003%nat /\
  (3 < 10)%nat /\
  exists s',
    script nat 0%nat (sample_solve 4) sample_assemble ticking 10
      = Exit BreakStmt (finish nat ticking s') /\
    ii s' = 4%nat /\
    List.length (solver_calls (finish nat ticking s')) = 4%nat /\
    timeHist0 (finish nat ticking s') = timeHist0 (sample_head 4 ticking 3).
Proof.
  assert (H1 : after_steps nat 0%nat (sample_solve 4) sample_assemble ticking 3
               = Some (sample_head 4 ticking 3)) by (vm_compute; reflexivity).
  assert (H2 : (3 < numSteps)%nat) by (unfold numSteps; lia).
  assert (H3 : sample_solve 4 (w (sample_head 4 ticking 3))
                 (dispTot * tseq 4 / Ttot) = Raised 1003%nat)
    by (vm_compute; reflexivity).
  assert (H4 : (3 < 10)%nat) by lia.
  repeat (split; [assumption|]).
  destruct (C3_solver_failure_stops_the_run nat 0%nat (sample_solve 4)
              sample_assemble ticking 3 (sample_head 4 ticking 3) 1003%nat 10
              H1 H2 H3 H4)
    as (s' & _ & R & I & _ & _ & C & T0 & _).
  exists s'. repeat split; try assumption.
  rewrite <- (length_map snd), C, length_map, length_seq. reflexivity.
Defined.

(** C4 on the run whose fourth solve raises: [w_old] stays at the third
    converged state while [w] is what the failed solve left. *)
Lemma C4_w_old_sample :
  after_steps nat 0%nat (sample_solve 4) sample_assemble ticking 3
    = Some (sample_head 4 ticking 3) /\
  (3 < numSteps)%nat /\
  w_old (sample_head 4 ticking 3) = 3%nat /\
  w_old (sample_broken 4 ticking 3) = 3%nat /\
  w (sample_broken 4 ticking 3) = 1003%nat.
Proof.
  assert (H1 : after_steps nat 0%nat (sample_solve 4) sample_assemble ticking 3
               = Some (sample_head 4 ticking 3)) by (vm_compute; reflexivity).
  assert (H2 : (3 < numSteps)%nat) by (unfold numSteps; lia).
  repeat (split; [assumption|]).
  pose proof (C4_w_old_is_last_converged nat 0%nat (sample_solve 4)
                sample_assemble ticking 3 (sample_head 4 ticking 3) H1 H2)
    as (A & _ & B).
  split; [rewrite A; vm_compute; reflexivity|].
  replace (sample_solve 4 (w (sample_head 4 ticking 3))
             (dispTot * tseq 4 / Ttot)) with (@Raised nat 1003%nat) in B
    by (vm_compute; reflexivity).
  destruct B as (s' & B & Bw & Bo & _).
  unfold sample_broken. rewrite B. cbn [state_of].
  split; [rewrite Bo, A; vm_compute; reflexivity | exact Bw].
Defined.

(** C5, as the script has it, on the run whose fourth solve raises. *)
Lemma C5_closing_banner_sample :
  script nat 0%nat (sample_solve 4) sample_assemble ticking 10
    = Exit BreakStmt (sample_final 4 ticking 10) /\
  progress_count (stdout (sample_final 4 ticking 10)) = 3%nat.
Proof.
  assert (H1 : script nat 0%nat (sample_solve 4) sample_assemble ticking 10
               = Exit BreakStmt (sample_final 4 ticking 10))
    by (vm_compute; reflexivity).
  split; [assumption|].
  destruct (C5_closing_banner_only nat 0%nat (sample_solve 4) sample_assemble
              ticking 10 BreakStmt (sample_final 4 ticking 10) H1)
    as (s & _ & _ & _ & _ & _ & P).
  rewrite P. vm_compute. reflexivity.
Defined.

(** C5, as stated, against two runs under a clock that stands still: one
    reaches the target time in [numSteps] steps, the other breaks in its
    first pass, and the lines printed on completion are the same; nothing
    read off them tells the two apart. *)
Lemma C5_end_report_is_silent :
  let sA := sample_head 0 frozen numSteps in
  let sB := sample_broken 1 frozen 0 in
  script nat 0%nat (sample_solve 0) sample_assemble frozen (S numSteps)
    = Exit CondFalse (finish nat frozen sA) /\
  script nat 0%nat (sample_solve 1) sample_assemble frozen (S numSteps)
    = Exit BreakStmt (finish nat frozen sB) /\
  ii (finish nat frozen sA) = numSteps /\
  ii (finish nat frozen sB) = 1%nat /\
  end_report nat frozen sA = end_report nat frozen sB /\
  ~ (exists reads : list line -> loop_exit * nat,
       reads (end_report nat frozen sA) = (CondFalse, numSteps) /\
       reads (end_report nat frozen sB) = (BreakStmt, 1%nat)).
Proof.
  cbv zeta.
  pose proof (after_steps_head _ _ _ _ _ _ _ (sample_full_head frozen)) as HA.
  assert (HR : end_report nat frozen (sample_head 0 frozen numSteps)
               = end_report nat frozen (sample_broken 1 frozen 0)).
  { rewrite !end_report_eq, (head_start _ _ _ _ _ HA).
    transitivity (end_banner (0 - 0)); [reflexivity|].
    vm_compute. reflexivity. }
  split; [apply sample_full_run|].
  split; [vm_compute; reflexivity|].
  split; [rewrite finish_ii; exact (head_ii _ _ _ _ _ HA)|].
  split; [vm_compute; reflexivity|].
  split; [exact HR|].
  intros (reads & RA & RB). rewrite HR, RB in RA. discriminate.
Qed.


(** C9 after two passes of the run whose fourth solve raises. *)
Lemma C9_ramp_sample :
  after_steps nat 0%nat (sample_solve 4) sample_assemble ticking 2
    = Some (sample_head 4 ticking 2) /\
  map snd (solver_calls (sample_head 4 ticking 2))
    = [dispTot * tseq 1 / Ttot; dispTot * tseq 2 / Ttot] /\
  t (sample_broken 4 ticking 2) = t (sample_head 4 ticking 2) + dt /\
  expr_t (dispRamp (sample_broken 4 ticking 2)) = t (sample_broken 4 ticking 2).
Proof.
  assert (H1 : after_steps nat 0%nat (sample_solve 4) sample_assemble ticking 2
               = Some (sample_head 4 ticking 2)) by (vm_compute; reflexivity).
  split; [assumption|].
  destruct (C9_ramp_follows_the_time nat 0%nat (sample_solve 4) sample_assemble
              ticking 2 (sample_head 4 ticking 2) H1)
    as (_ & _ & _ & _ & C & T & R & _).
  split; [exact C|]. split; [exact T|].
  unfold sample_broken. rewrite R. reflexivity.
Defined.

(** C10 on the run whose fourth solve raises: entry 3 is the last one
    written. *)
Lemma C10_trailing_zeros_sample :
  script nat 0%nat (sample_solve 4) sample_assemble ticking 10
    = Exit BreakStmt (sample_final 4 ticking 10) /\
  nth 3 (timeHist0 (sample_final 4 ticking 10)) 0 == 53 # 50 /\
  nth 4 (timeHist0 (sample_final 4 ticking 10)) 0 = 0 /\
  nth 100 (timeHist0 (sample_final 4 ticking 10)) 0 = 0.
Proof.
  assert (H1 : script nat 0%nat (sample_solve 4) sample_assemble ticking 10
               = Exit BreakStmt (sample_final 4 ticking 10))
    by (vm_compute; reflexivity).
  split; [assumption|].
  pose proof (C10_trailing_zeros_after_abort nat 0%nat (sample_solve 4)
                sample_assemble ticking 10 (sample_final 4 ticking 10) H1)
    as T.
  assert (K : pred (ii (sample_final 4 ticking 10)) = 3%nat)
    by (vm_compute; reflexivity).
  cbv zeta in T. rewrite K in T.
  destruct T as (_ & _ & _ & _ & _ & V & Z & _).
  split; [rewrite V; reflexivity|].
  split; [apply (Z 4%nat) | apply (Z 100%nat)]; lia.
Defined.

End DriverFacts.

(** ** Further properties of the kinematics and of the material model *)

Module KinematicsMore.
Import Kinematics Fields KinematicsFacts.
Local Open Scope R_scope.

(** Componentwise equality, with the operations of [Fields]. *)
Ltac fields_eq :=
  cbv [dev inv adj msub madd mmul smul sdiv transpose tr det inner
       Identity3 Zero3 m11 m12 m13 m21 m22 m23 m31 m32 m33];
  f_equal; first [ring | field].

Lemma tr_dev A : tr (dev A) = 0.
Proof.
  cbv [dev msub smul tr Identity3 m11 m12 m13 m21 m22 m23 m31 m32 m33].
  field.
Qed.

(** X1: the trace of the Cauchy stress of [T_calc] is [-3p] for every
    field: the pressure unknown is minus the mean normal stress. *)
Theorem Cauchy_trace_is_the_pressure (u_w u : vfield) (p : R) :
  tr (T_calc u_w u p) = - 3 * p.
Proof.
  unfold T_calc.
  generalize (1 / det (F_calc u) * Gshear_AB_calc u_w u).
  generalize (smul (Rpower (det (F_calc u)) (-2/3))
                (mmul (F_calc u) (transpose (F_calc u)))).
  intros B c.
  cbv [dev msub smul tr Identity3 m11 m12 m13 m21 m22 m23 m31 m32 m33]. field.
Qed.

(** X2: the Cauchy stress of [T_calc] is a symmetric tensor for every
    field and pressure. *)
Theorem Cauchy_stress_is_symmetric (u_w u : vfield) (p : R) :
  transpose (T_calc u_w u p) = T_calc u_w u p.
Proof.
  unfold T_calc.
  generalize (1 / det (F_calc u) * Gshear_AB_calc u_w u).
  generalize (Rpower (det (F_calc u)) (-2/3)) (F_calc u).
  intros r F c. fields_eq.
Qed.

Lemma mmul_inv_l A : det A <> 0 -> mmul (inv A) A = Identity3.
Proof.
  intro H.
  cbv [inv adj det mmul smul Identity3 m11 m12 m13 m21 m22 m23 m31 m32 m33].
  cbv [det m11 m12 m13 m21 m22 m23 m31 m32 m33] in H.
  f_equal; field; exact H.
Qed.


Lemma mmul_assoc A B C : mmul (mmul A B) C = mmul A (mmul B C).
Proof. fields_eq. Qed.

Lemma mmul_Identity3_r A : mmul A Identity3 = A.
Proof. destruct A. fields_eq. Qed.

Lemma mmul_Identity3_l A : mmul Identity3 A = A.
Proof. destruct A. fields_eq. Qed.

Lemma sdiv_smul c A : c <> 0 -> sdiv (smul c A) c = A.
Proof.
  intro H. destruct A.
  cbv [sdiv smul m11 m12 m13 m21 m22 m23 m31 m32 m33]. f_equal; field; exact H.
Qed.

Lemma mmul_smul_l c A B : mmul (smul c A) B = smul c (mmul A B).
Proof. fields_eq. Qed.

Lemma T_vis_eq (u_w : vfield) (p_w : R) :
  J_global u_w <> 0 -> T_vis u_w p_w = T_calc u_w u_w p_w.
Proof.
  intro HJ. unfold T_vis, Tmat_global, Tmat_calc, F_global.
  fold (F_global u_w). fold (J_global u_w).
  rewrite mmul_assoc, mmul_inv_l, mmul_Identity3_r
    by (rewrite det_transpose; exact HJ).
  apply sdiv_smul, HJ.
Qed.

Lemma T0_vis_eq (u_w : vfield) (p_w : R) :
  J_global u_w <> 0 ->
  T0_vis u_w p_w =
  smul (1 / J_global u_w * Gshear_AB_calc u_w u_w)
    (dev (smul (Rpower (J_global u_w) (-2/3))
            (mmul (F_global u_w) (transpose (F_global u_w))))).
Proof.
  intro HJ. unfold T0_vis. rewrite (T_vis_eq _ _ HJ).
  unfold T_calc. fold (F_global u_w). fold (J_global u_w).
  generalize (1 / J_global u_w * Gshear_AB_calc u_w u_w).
  generalize (smul (Rpower (J_global u_w) (-2/3))
                (mmul (F_global u_w) (transpose (F_global u_w)))).
  intros B c. fields_eq.
Qed.


(** *** Tensor algebra used below *)

Lemma det_mmul A B : det (mmul A B) = det A * det B.
Proof.
  cbv [det mmul m11 m12 m13 m21 m22 m23 m31 m32 m33]. ring.
Qed.

Lemma transpose_mmul A B :
  transpose (mmul A B) = mmul (transpose B) (transpose A).
Proof. fields_eq. Qed.

Lemma transpose_transpose A : transpose (transpose A) = A.
Proof. destruct A. reflexivity. Qed.

Lemma tr_mmul_comm A B : tr (mmul A B) = tr (mmul B A).
Proof. cbv [tr mmul m11 m12 m13 m21 m22 m23 m31 m32 m33]. ring. Qed.

Lemma mmul_smul_r c A B : mmul A (smul c B) = smul c (mmul A B).
Proof. fields_eq. Qed.

Lemma mmul_msub_l A B C : mmul A (msub B C) = msub (mmul A B) (mmul A C).
Proof. fields_eq. Qed.

Lemma mmul_msub_r A B C : mmul (msub A B) C = msub (mmul A C) (mmul B C).
Proof. fields_eq. Qed.

Lemma tr_smul c A : tr (smul c A) = c * tr A.
Proof. cbv [tr smul m11 m12 m13 m21 m22 m23 m31 m32 m33]. ring. Qed.

(** The shear modulus sees the field only through the effective stretch. *)
Lemma zeta_calc_lambdaBar w1 u1 w2 u2 :
  lambdaBar_calc w1 u1 = lambdaBar_calc w2 u2 ->
  zeta_calc w1 u1 = zeta_calc w2 u2.
Proof. intro E. unfold zeta_calc. rewrite E. reflexivity. Qed.

Lemma Gshear_AB_calc_lambdaBar w1 u1 w2 u2 :
  lambdaBar_calc w1 u1 = lambdaBar_calc w2 u2 ->
  Gshear_AB_calc w1 u1 = Gshear_AB_calc w2 u2.
Proof.
  intro E. unfold Gshear_AB_calc. now rewrite (zeta_calc_lambdaBar _ _ _ _ E).
Qed.

Section Rotation.

Variable Q : M33.
Hypothesis QtQ : mmul (transpose Q) Q = Identity3.
Hypothesis QQt : mmul Q (transpose Q) = Identity3.
Hypothesis detQ : det Q = 1.

Variables u u' : vfield.
Hypothesis rotated : F_calc u' = mmul Q (F_calc u).

Lemma rotated_det : det (F_calc u') = det (F_calc u).
Proof. rewrite rotated, det_mmul, detQ. ring. Qed.

Lemma rotated_C :
  mmul (transpose (F_calc u')) (F_calc u')
  = mmul (transpose (F_calc u)) (F_calc u).
Proof.
  rewrite rotated, transpose_mmul, mmul_assoc, <- (mmul_assoc (transpose Q)).
  now rewrite QtQ, mmul_Identity3_l.
Qed.

Lemma rotated_lambdaBar : lambdaBar_calc u' u' = lambdaBar_calc u u.
Proof.
  unfold lambdaBar_calc, J_global, F_global.
  now rewrite rotated_det, rotated_C.
Qed.

Lemma rotated_dev A :
  dev (mmul (mmul Q A) (transpose Q)) = mmul (mmul Q (dev A)) (transpose Q).
Proof.
  unfold dev.
  rewrite mmul_msub_l, mmul_msub_r, mmul_smul_r, mmul_Identity3_r,
    mmul_smul_l, QQt.
  rewrite (tr_mmul_comm (mmul Q A)), <- mmul_assoc, QtQ, mmul_Identity3_l.
  reflexivity.
Qed.

Lemma rotated_T p :
  T_calc u' u' p = mmul (mmul Q (T_calc u u p)) (transpose Q).
Proof.
  unfold T_calc.
  rewrite (Gshear_AB_calc_lambdaBar _ _ _ _ rotated_lambdaBar), rotated_det.
  set (c := 1 / det (F_calc u) * Gshear_AB_calc u u).
  set (r := Rpower (det (F_calc u)) (-2/3)).
  rewrite rotated, transpose_mmul.
  replace (mmul (mmul Q (F_calc u)) (mmul (transpose (F_calc u)) (transpose Q)))
    with (mmul (mmul Q (mmul (F_calc u) (transpose (F_calc u)))) (transpose Q))
    by (rewrite !mmul_assoc; reflexivity).
  set (B := mmul (F_calc u) (transpose (F_calc u))).
  replace (smul r (mmul (mmul Q B) (transpose Q)))
    with (mmul (mmul Q (smul r B)) (transpose Q))
    by (rewrite mmul_smul_r, mmul_smul_l; reflexivity).
  rewrite rotated_dev, mmul_msub_l, mmul_msub_r.
  rewrite !mmul_smul_r, !mmul_smul_l, mmul_Identity3_r, QQt.
  reflexivity.
Qed.

End Rotation.


(** *** Particular deformations *)

Lemma Rpower_cube a : 0 < a -> Rpower (a * a * a) (-2/3) = / (a * a).
Proof.
  intro H. unfold Rpower.
  rewrite !ln_mult by nra.
  replace (-2 / 3 * (ln a + ln a + ln a)) with (- (ln a + ln a)) by field.
  rewrite exp_Ropp, exp_plus, exp_ln by exact H. reflexivity.
Qed.

Lemma det_dilation a : det (F_calc (dilation a)) = a * a * a.
Proof.
  cbv [det F_calc dilation grad madd Identity3
       m11 m12 m13 m21 m22 m23 m31 m32 m33]. ring.
Qed.

Lemma lambdaBar_dilation a :
  0 < a -> lambdaBar_calc (dilation a) (dilation a) = 1.
Proof.
  intro H. unfold lambdaBar_calc, J_global, F_global.
  rewrite det_dilation, (Rpower_cube a H).
  transitivity (sqrt 1); [f_equal | apply sqrt_1].
  cbv [F_calc dilation grad tr smul mmul transpose madd Identity3
       m11 m12 m13 m21 m22 m23 m31 m32 m33].
  field. lra.
Qed.

Lemma T_dilation u_w a p :
  0 < a -> T_calc u_w (dilation a) p = smul (- p) Identity3.
Proof.
  intro H. unfold T_calc. rewrite det_dilation.
  generalize (1 / (a * a * a) * Gshear_AB_calc u_w (dilation a)).
  generalize (Rpower (a * a * a) (-2/3)). intros r c.
  cbv [F_calc dilation grad dev msub madd mmul smul transpose tr Identity3
       m11 m12 m13 m21 m22 m23 m31 m32 m33].
  f_equal; field.
Qed.

Lemma det_uniaxial a : a <> 0 -> det (F_calc (uniaxial a)) = 1.
Proof.
  intro H.
  cbv [det F_calc uniaxial grad madd Identity3
       m11 m12 m13 m21 m22 m23 m31 m32 m33]. field. exact H.
Qed.

Lemma lambdaBar_uniaxial a :
  a <> 0 ->
  lambdaBar_calc (uniaxial a) (uniaxial a) = sqrt ((a ^ 4 + 2 / a ^ 2) / 3).
Proof.
  intro H. unfold lambdaBar_calc, J_global, F_global.
  rewrite (det_uniaxial a H), Rpower_base_1. f_equal.
  cbv [F_calc uniaxial grad tr smul mmul transpose madd Identity3
       m11 m12 m13 m21 m22 m23 m31 m32 m33].
  field. exact H.
Qed.

Lemma T_uniaxial a p :
  a <> 0 ->
  let G := Gshear_AB_calc (uniaxial a) (uniaxial a) in
  T_calc (uniaxial a) (uniaxial a) p =
  mk33 (2 / 3 * G * (a ^ 4 - / a ^ 2) - p) 0 0
       0 (- (1 / 3) * G * (a ^ 4 - / a ^ 2) - p) 0
       0 0 (- (1 / 3) * G * (a ^ 4 - / a ^ 2) - p).
Proof.
  intros H G. unfold T_calc. rewrite (det_uniaxial a H), Rpower_base_1.
  fold G. generalize G. intro g.
  cbv [F_calc uniaxial grad dev msub madd mmul smul transpose tr Identity3
       m11 m12 m13 m21 m22 m23 m31 m32 m33].
  f_equal; field; exact H.
Qed.

Lemma lambdaBar_rest : lambdaBar_calc zero_field zero_field = 1.
Proof.
  unfold lambdaBar_calc, J_global, F_global.
  rewrite F_calc_zero, det_Identity3, Rpower_base_1.
  transitivity (sqrt 1); [f_equal | apply sqrt_1].
  cbv [tr smul mmul transpose Identity3
       m11 m12 m13 m21 m22 m23 m31 m32 m33].
  field.
Qed.

(** *** The two regimes of the shear modulus *)

Lemma div_le_div a b c d :
  0 < b -> 0 < d -> a * d <= c * b -> a / b <= c / d.
Proof.
  intros Hb Hd H. apply div_le_of; [exact Hb|].
  unfold Rdiv. rewrite Rmult_assoc, (Rmult_comm (/ d)), <- Rmult_assoc.
  apply Rmult_le_reg_r with d; [exact Hd|].
  rewrite Rmult_assoc, Rinv_l by lra. lra.
Qed.

Lemma zeta_below u_w u :
  0 < lambdaBar_calc u_w u -> lambdaBar_calc u_w u <= 0.95 * lambdaL ->
  let z := lambdaBar_calc u_w u / lambdaL in
  0 < z <= 0.95 /\ zeta_calc u_w u = (3 - z ^ 2) / (3 * (1 - z ^ 2)).
Proof.
  intros Hpos Hle z.
  assert (HL : lambdaL = 5.12) by reflexivity.
  assert (Hz : 0 < z <= 0.95).
  { unfold z. split.
    - apply Rdiv_lt_0_compat; lra.
    - apply div_le_of; lra. }
  split; [exact Hz|].
  unfold zeta_calc. fold z. rewrite conditional_gt_Rmin, Rmin_left by lra.
  assert (Hlb : lambdaBar_calc u_w u = z * lambdaL) by (unfold z; field; lra).
  rewrite Hlb. field. split; [nra|]. split; [lra|lra].
Qed.

Lemma zeta_above u_w u :
  0.95 * lambdaL <= lambdaBar_calc u_w u ->
  zeta_calc u_w u * lambdaBar_calc u_w u
  = lambdaL * (0.95 * (3 - 0.95 ^ 2) / (1 - 0.95 ^ 2)) / 3.
Proof.
  intros Hle.
  assert (HL : lambdaL = 5.12) by reflexivity.
  assert (Hpos : 0 < lambdaBar_calc u_w u) by lra.
  unfold zeta_calc. rewrite conditional_gt_Rmin, Rmin_right.
  - set (k := 0.95 * (3 - 0.95 ^ 2) / (1 - 0.95 ^ 2)). clearbody k.
    field. lra.
  - apply Rmult_le_reg_r with lambdaL; [lra|].
    unfold Rdiv. rewrite Rmult_assoc, Rinv_l by lra. lra.
Qed.


(** *** The theorems *)

(** X3: where the module-level [J] is not zero, the Cauchy stress that
    [writeResults] rebuilds from the Piola stress, [Tmat*F.T/J], is the
    Cauchy stress of [T_calc] at the module-level fields. *)
Theorem Cauchy_recovered_from_Piola (u_w : vfield) (p_w : R) :
  J_global u_w <> 0 ->
  T_vis u_w p_w = T_calc u_w u_w p_w /\
  mmul (Tmat_global u_w p_w) (transpose (F_global u_w))
  = smul (J_global u_w) (T_calc u_w u_w p_w).
Proof.
  intro HJ. split; [exact (T_vis_eq u_w p_w HJ)|].
  unfold Tmat_global, Tmat_calc, F_global.
  fold (F_global u_w). fold (J_global u_w).
  rewrite mmul_assoc, mmul_inv_l, mmul_Identity3_r
    by (rewrite det_transpose; exact HJ).
  reflexivity.
Qed.

Lemma Cauchy_recovered_at_rest :
  J_global zero_field <> 0 /\
  T_vis zero_field 7 = T_calc zero_field zero_field 7.
Proof.
  assert (H : J_global zero_field <> 0).
  { unfold J_global, F_global. rewrite F_calc_zero, det_Identity3. lra. }
  split; [exact H|].
  exact (proj1 (Cauchy_recovered_from_Piola zero_field 7 H)).
Defined.

(** X4: where the module-level [J] is not zero, the deviator that
    [writeResults] takes holds no pressure, so the Mises stress it writes is
    the same for every pressure field. *)
Theorem Mises_ignores_the_pressure (u_w : vfield) (p1 p2 : R) :
  J_global u_w <> 0 ->
  T0_vis u_w p1 = T0_vis u_w p2 /\
  tr (T0_vis u_w p1) = 0 /\
  Mises u_w p1 = Mises u_w p2.
Proof.
  intro HJ.
  assert (E : T0_vis u_w p1 = T0_vis u_w p2)
    by (rewrite !(T0_vis_eq _ _ HJ); reflexivity).
  split; [exact E|]. split; [|unfold Mises; now rewrite E].
  rewrite (T0_vis_eq _ _ HJ), tr_smul, tr_dev. ring.
Qed.

Lemma Mises_ignores_the_pressure_at_rest :
  J_global zero_field <> 0 /\ Mises zero_field 7 = Mises zero_field 0.
Proof.
  assert (H : J_global zero_field <> 0).
  { unfold J_global, F_global. rewrite F_calc_zero, det_Identity3. lra. }
  split; [exact H|].
  exact (proj2 (proj2 (Mises_ignores_the_pressure zero_field 7 0 H))).
Defined.

(** X5: a pure dilation [F = a I], [0 < a], has [det F = a^3], effective
    stretch 1 and the shear modulus of the state at rest, and its Cauchy
    stress is [-p I]: a change of volume alone produces no shear stress. *)
Theorem pure_dilation_is_shear_free (u_w : vfield) (a p : R) :
  0 < a ->
  det (F_calc (dilation a)) = a * a * a /\
  lambdaBar_calc (dilation a) (dilation a) = 1 /\
  Gshear_AB_calc (dilation a) (dilation a)
  = Gshear_AB_calc zero_field zero_field /\
  T_calc u_w (dilation a) p = smul (- p) Identity3.
Proof.
  intro H. split; [apply det_dilation|].
  split; [exact (lambdaBar_dilation a H)|].
  split; [|exact (T_dilation u_w a p H)].
  apply Gshear_AB_calc_lambdaBar.
  now rewrite (lambdaBar_dilation a H), lambdaBar_rest.
Qed.

Lemma pure_dilation_doubled :
  0 < 2 /\ T_calc zero_field (dilation 2) 7 = smul (- 7) Identity3.
Proof.
  assert (H : 0 < 2) by lra.
  split; [exact H|].
  exact (proj2 (proj2 (proj2
           (pure_dilation_is_shear_free zero_field 2 7 H)))).
Defined.

(** X6: the constitutive law is frame indifferent.  When the deformation
    gradient of [u'] is that of [u] followed by a rotation [Q], the
    determinant and the effective stretch are unchanged and the Cauchy
    stress is rotated with it: [T' = Q T Q^T]. *)
Theorem frame_indifference (Q : M33) (u u' : vfield) (p : R) :
  mmul (transpose Q) Q = Identity3 ->
  mmul Q (transpose Q) = Identity3 ->
  det Q = 1 ->
  F_calc u' = mmul Q (F_calc u) ->
  det (F_calc u') = det (F_calc u) /\
  lambdaBar_calc u' u' = lambdaBar_calc u u /\
  Gshear_AB_calc u' u' = Gshear_AB_calc u u /\
  T_calc u' u' p = mmul (mmul Q (T_calc u u p)) (transpose Q).
Proof.
  intros QtQ QQt detQ R.
  split; [exact (rotated_det Q detQ u u' R)|].
  split; [exact (rotated_lambdaBar Q QtQ detQ u u' R)|].
  split; [|exact (rotated_T Q QtQ QQt detQ u u' R p)].
  apply Gshear_AB_calc_lambdaBar, (rotated_lambdaBar Q QtQ detQ u u' R).
Qed.

Lemma frame_indifference_quarter_turn :
  mmul (transpose quarter_turn) quarter_turn = Identity3 /\
  mmul quarter_turn (transpose quarter_turn) = Identity3 /\
  det quarter_turn = 1 /\
  F_calc stretched_turned = mmul quarter_turn (F_calc stretched) /\
  T_calc stretched_turned stretched_turned 7
  = mmul (mmul quarter_turn (T_calc stretched stretched 7))
      (transpose quarter_turn).
Proof.
  assert (H1 : mmul (transpose quarter_turn) quarter_turn = Identity3)
    by (unfold quarter_turn; fields_eq).
  assert (H2 : mmul quarter_turn (transpose quarter_turn) = Identity3)
    by (unfold quarter_turn; fields_eq).
  assert (H3 : det quarter_turn = 1)
    by (cbv [det quarter_turn m11 m12 m13 m21 m22 m23 m31 m32 m33]; ring).
  assert (H4 : F_calc stretched_turned = mmul quarter_turn (F_calc stretched))
    by (cbv [F_calc stretched_turned stretched quarter_turn grad]; fields_eq).
  repeat (split; [assumption|]).
  exact (proj2 (proj2 (proj2
           (frame_indifference quarter_turn stretched stretched_turned 7
              H1 H2 H3 H4)))).
Defined.

(** X7: while the effective stretch is positive and at most
    [0.95 lambdaL], the shear modulus is
    [Gshear_0 (3 - z^2) / (3 (1 - z^2))] with [z = lambdaBar/lambdaL]; it
    is at least [Gshear_0] and does not decrease when the effective
    stretch grows. *)
Theorem shear_modulus_stiffens_below_the_clamp (w1 u1 w2 u2 : vfield) :
  0 < lambdaBar_calc w1 u1 ->
  lambdaBar_calc w1 u1 <= lambdaBar_calc w2 u2 ->
  lambdaBar_calc w2 u2 <= 0.95 * lambdaL ->
  let z := lambdaBar_calc w1 u1 / lambdaL in
  Gshear_AB_calc w1 u1 = Gshear_0 * ((3 - z ^ 2) / (3 * (1 - z ^ 2))) /\
  Gshear_0 <= Gshear_AB_calc w1 u1 /\
  Gshear_AB_calc w1 u1 <= Gshear_AB_calc w2 u2.
Proof.
  intros Hpos Hle Hmax z.
  assert (HL : lambdaL = 5.12) by reflexivity.
  destruct (zeta_below w1 u1 Hpos) as (Hz1 & E1); [lra|].
  destruct (zeta_below w2 u2) as (Hz2 & E2); [lra | exact Hmax |].
  fold z in Hz1, E1. set (z2 := lambdaBar_calc w2 u2 / lambdaL) in *.
  assert (Hzz : z <= z2).
  { unfold z, z2, Rdiv. apply Rmult_le_compat_r; [|exact Hle].
    left. apply Rinv_0_lt_compat. lra. }
  unfold Gshear_AB_calc. rewrite E1, E2.
  split; [reflexivity|].
  assert (HG : 0 <= Gshear_0) by (unfold Gshear_0; lra).
  split.
  - rewrite <- (Rmult_1_r Gshear_0) at 1.
    apply Rmult_le_compat_l; [exact HG|].
    replace 1 with (1 / 1) by field.
    apply div_le_div; nra.
  - apply Rmult_le_compat_l; [exact HG|].
    apply div_le_div; nra.
Qed.

Lemma shear_modulus_at_rest :
  0 < lambdaBar_calc zero_field zero_field /\
  lambdaBar_calc zero_field zero_field
  <= lambdaBar_calc zero_field zero_field /\
  lambdaBar_calc zero_field zero_field <= 0.95 * lambdaL /\
  Gshear_0 <= Gshear_AB_calc zero_field zero_field.
Proof.
  assert (H1 : 0 < lambdaBar_calc zero_field zero_field)
    by (rewrite lambdaBar_rest; lra).
  assert (H2 : lambdaBar_calc zero_field zero_field
               <= lambdaBar_calc zero_field zero_field) by lra.
  assert (H3 : lambdaBar_calc zero_field zero_field <= 0.95 * lambdaL)
    by (rewrite lambdaBar_rest; unfold lambdaL; lra).
  repeat (split; [assumption|]).
  exact (proj1 (proj2
           (shear_modulus_stiffens_below_the_clamp
              zero_field zero_field zero_field zero_field H1 H2 H3))).
Defined.

(** X8: once the effective stretch is [0.95 lambdaL] or more, the clamp
    holds [beta] fixed and the shear modulus times the effective stretch is
    the constant [Gshear_0 lambdaL beta(0.95) / 3]: the modulus no longer
    grows with the stretch but falls off as its inverse. *)
Theorem shear_modulus_falls_beyond_the_clamp (w1 u1 w2 u2 : vfield) :
  0.95 * lambdaL <= lambdaBar_calc w1 u1 ->
  lambdaBar_calc w1 u1 <= lambdaBar_calc w2 u2 ->
  Gshear_AB_calc w1 u1 * lambdaBar_calc w1 u1
  = Gshear_0 * (lambdaL * (0.95 * (3 - 0.95 ^ 2) / (1 - 0.95 ^ 2)) / 3) /\
  Gshear_AB_calc w2 u2 * lambdaBar_calc w2 u2
  = Gshear_AB_calc w1 u1 * lambdaBar_calc w1 u1 /\
  0 < Gshear_AB_calc w2 u2 <= Gshear_AB_calc w1 u1.
Proof.
  intros H1 H12.
  assert (HL : lambdaL = 5.12) by reflexivity.
  assert (H2 : 0.95 * lambdaL <= lambdaBar_calc w2 u2) by lra.
  pose proof (zeta_above w1 u1 H1) as E1.
  pose proof (zeta_above w2 u2 H2) as E2.
  unfold Gshear_AB_calc. rewrite !Rmult_assoc, E1, E2.
  split; [reflexivity|]. split; [reflexivity|].
  set (k := lambdaL * (0.95 * (3 - 0.95 ^ 2) / (1 - 0.95 ^ 2)) / 3) in *.
  assert (Hk : 0 < k) by (unfold k; rewrite HL; lra).
  set (l1 := lambdaBar_calc w1 u1) in *. set (l2 := lambdaBar_calc w2 u2) in *.
  assert (P1 : 0 < l1) by lra. assert (P2 : 0 < l2) by lra.
  assert (Z1 : zeta_calc w1 u1 = k / l1) by (rewrite <- E1; field; lra).
  assert (Z2 : zeta_calc w2 u2 = k / l2) by (rewrite <- E2; field; lra).
  rewrite Z1, Z2.
  assert (HG : 0 < Gshear_0) by (unfold Gshear_0; lra).
  split.
  - apply Rmult_lt_0_compat; [exact HG|]. now apply Rdiv_lt_0_compat.
  - apply Rmult_le_compat_l; [lra|]. apply div_le_div; nra.
Qed.

Lemma shear_modulus_at_large_stretch :
  0.95 * lambdaL <= lambdaBar_calc (uniaxial 3) (uniaxial 3) /\
  lambdaBar_calc (uniaxial 3) (uniaxial 3)
  <= lambdaBar_calc (uniaxial 3) (uniaxial 3) /\
  0 < Gshear_AB_calc (uniaxial 3) (uniaxial 3).
Proof.
  assert (H1 : 0.95 * lambdaL <= lambdaBar_calc (uniaxial 3) (uniaxial 3)).
  { rewrite lambdaBar_uniaxial by lra. unfold lambdaL.
    rewrite <- (sqrt_square (0.95 * 5.12)) by lra.
    apply sqrt_le_1_alt. lra. }
  assert (H2 : lambdaBar_calc (uniaxial 3) (uniaxial 3)
               <= lambdaBar_calc (uniaxial 3) (uniaxial 3)) by lra.
  repeat (split; [assumption|]).
  exact (proj1 (proj2 (proj2
           (shear_modulus_falls_beyond_the_clamp
              (uniaxial 3) (uniaxial 3) (uniaxial 3) (uniaxial 3) H1 H2)))).
Defined.

(** X9: with the displacement at rest the residual integrand of the weak
    form vanishes for every test function exactly when the pressure is
    zero: the initial state [w = 0] is an equilibrium, and at rest no other
    pressure is. *)
Theorem rest_is_an_equilibrium_iff_no_pressure (p : R) :
  (forall grad_u_test p_test, Res zero_field p grad_u_test p_test = 0)
  <-> p = 0.
Proof.
  assert (HT : Tmat_global zero_field p = smul (- p) Identity3).
  { unfold Tmat_global, Tmat_calc, T_calc.
    rewrite F_calc_zero, det_Identity3, Rpower_base_1.
    generalize (Gshear_AB_calc zero_field zero_field). intro g.
    cbv [dev inv adj det msub madd mmul smul transpose tr Identity3
         m11 m12 m13 m21 m22 m23 m31 m32 m33].
    f_equal; field. }
  assert (HF : fac_p zero_field = 0).
  { unfold fac_p, J_global, F_global.
    rewrite F_calc_zero, det_Identity3, ln_1. field. }
  assert (HR : forall g q,
            Res zero_field p g q = - p * tr g + p / Kbulk * q).
  { intros g q. unfold Res, Res_0, Res_1. rewrite HT, HF.
    cbv [inner smul tr Identity3 m11 m12 m13 m21 m22 m23 m31 m32 m33].
    ring. }
  split.
  - intro H. specialize (H Zero3 1). rewrite HR in H.
    cbv [tr Zero3 m11 m22 m33] in H. unfold Kbulk, Gshear_0 in H. lra.
  - intros -> g q. rewrite HR. unfold Rdiv. ring.
Qed.

(** X10: an isochoric uniaxial stretch [F = diag(a^2, 1/a, 1/a)] has
    [det F = 1] and effective stretch [sqrt((a^4 + 2/a^2)/3)]; its Cauchy
    stress is diagonal with equal lateral stresses, and the axial stress
    exceeds them by [G (a^4 - 1/a^2)], [G] the shear modulus at that
    stretch. *)
Theorem uniaxial_stress (a p : R) :
  a <> 0 ->
  let u := uniaxial a in
  let G := Gshear_AB_calc u u in
  let T := T_calc u u p in
  det (F_calc u) = 1 /\
  lambdaBar_calc u u = sqrt ((a ^ 4 + 2 / a ^ 2) / 3) /\
  T = mk33 (m11 T) 0 0  0 (m22 T) 0  0 0 (m22 T) /\
  m11 T - m22 T = G * (a ^ 4 - / a ^ 2).
Proof.
  intros H u G T.
  split; [exact (det_uniaxial a H)|].
  split; [exact (lambdaBar_uniaxial a H)|].
  unfold T, u. rewrite (T_uniaxial a p H). fold u. fold G.
  cbn [m11 m22]. split; [reflexivity | field; exact H].
Qed.

Lemma uniaxial_stress_at_3 :
  3 <> 0 /\ det (F_calc (uniaxial 3)) = 1.
Proof.
  assert (H : 3 <> 0) by lra.
  split; [exact H|].
  exact (proj1 (uniaxial_stress 3 7 H)).
Defined.


(** X17: where the module-level [J] is positive, the pressure residual
    vanishes for every test function only for [p = - Kbulk ln(J) / J]; that
    pressure is positive under compression ([J < 1]), zero at [J = 1] and
    negative under expansion ([1 < J]). *)
Theorem pressure_of_the_volume_change (u_w : vfield) (p : R) :
  0 < J_global u_w ->
  (forall p_test, Res_1 u_w p p_test = 0) ->
  p = - Kbulk * ln (J_global u_w) / J_global u_w /\
  (J_global u_w < 1 -> 0 < p) /\
  (J_global u_w = 1 -> p = 0) /\
  (1 < J_global u_w -> p < 0).
Proof.
  intros HJ H. specialize (H 1). unfold Res_1, fac_p in H.
  set (J := J_global u_w) in *.
  assert (HK : 0 < Kbulk) by (unfold Kbulk, Gshear_0; lra).
  assert (E : p = - Kbulk * ln J / J).
  { rewrite Rmult_1_r in H.
    assert (E : p / Kbulk = - (ln J / J)) by lra.
    replace p with (p / Kbulk * Kbulk) by (field; lra).
    rewrite E. field. lra. }
  split; [exact E|].
  assert (S : forall x, p = - Kbulk * x / J -> (x < 0 -> 0 < p) /\
                        (x = 0 -> p = 0) /\ (0 < x -> p < 0)).
  { intros x ->.
    replace (- Kbulk * x / J) with (- x * (Kbulk / J)) by (field; lra).
    assert (0 < Kbulk / J) by now apply Rdiv_lt_0_compat.
    repeat split; intros; nra. }
  destruct (S _ E) as (S1 & S2 & S3).
  split; [intro Hlt; apply S1; rewrite <- ln_1; now apply ln_increasing|].
  split; [intro Heq; apply S2; rewrite Heq; apply ln_1|].
  intro Hgt. apply S3. rewrite <- ln_1. apply ln_increasing; lra.
Qed.

Lemma pressure_of_a_doubled_volume :
  0 < J_global (dilation 2) /\
  (forall p_test,
     Res_1 (dilation 2)
       (- Kbulk * ln (J_global (dilation 2)) / J_global (dilation 2)) p_test
     = 0) /\
  - Kbulk * ln (J_global (dilation 2)) / J_global (dilation 2) < 0.
Proof.
  assert (HJ : J_global (dilation 2) = 2 * 2 * 2) by apply det_dilation.
  assert (H1 : 0 < J_global (dilation 2)) by (rewrite HJ; lra).
  assert (H2 : forall p_test,
            Res_1 (dilation 2)
              (- Kbulk * ln (J_global (dilation 2)) / J_global (dilation 2))
              p_test = 0).
  { intro q. unfold Res_1, fac_p. generalize (ln (J_global (dilation 2))).
    intro l. unfold Kbulk, Gshear_0. field. lra. }
  repeat (split; [assumption|]).
  apply (pressure_of_the_volume_change (dilation 2) _ H1 H2).
  rewrite HJ. lra.
Defined.

End KinematicsMore.

(** ** Further properties of the load-stepping driver *)

Module DriverMore.
Import Driver DriverObs DriverFacts.
Local Open Scope Q_scope.

Lemma tseq_lt i k : (i < k)%nat -> tseq i < tseq k.
Proof.
  intro H. rewrite !tseq_eq.
  apply Qmult_lt_compat_r; [reflexivity|].
  rewrite <- Zlt_Qlt. lia.
Qed.

Lemma round_tseq_4 :
  forallb (fun i => Qeq_bool (round (tseq i) 4)
                      (inject_Z (Z.of_nat i) * (1 # 50)))
    (seq 0 (S numSteps)) = true.
Proof. vm_compute. reflexivity. Qed.

Lemma length_blocks {A B} (f : nat -> A -> B) (l : list A) n a :
  List.length (flat_map (fun i => map (f i) l) (seq a n))
  = (List.length l * n)%nat.
Proof.
  revert a. induction n as [|n IH]; intro a; [cbn; lia|].
  cbn [seq flat_map]. rewrite length_app, IH, length_map. lia.
Qed.

Lemma last_map_seq {A} (f : nat -> A) a n d :
  last (map f (seq a (S n))) d = f (a + n)%nat.
Proof. rewrite seq_S, map_app. cbn [map]. apply last_last. Qed.

Section Run.

Variable W : Type.
Variable w0 : W.
Variable solve : W -> Q -> solve_result W.
Variable assemble_P11 : W -> Q.
Variable now : nat -> Q.

Local Abbreviation body := (Driver.body W solve assemble_P11 now).
Local Abbreviation loop := (Driver.loop W solve assemble_P11 now).
Local Abbreviation script := (Driver.script W w0 solve assemble_P11 now).
Local Abbreviation prologue := (Driver.prologue W w0 now).
Local Abbreviation after_steps :=
  (Driver.after_steps W w0 solve assemble_P11 now).
Local Abbreviation finish := (Driver.finish W now).
Local Abbreviation head_invariant := (Driver.head_invariant W w0 now).

Lemma loop_more_fuel fuel : forall (s : state W) how s' fuel',
  loop fuel s = Exit how s' -> (fuel <= fuel')%nat ->
  loop fuel' s = Exit how s'.
Proof.
  induction fuel as [|fuel IH]; intros s how s' fuel' L Hf; [discriminate|].
  destruct fuel' as [|fuel']; [lia|].
  cbn [Driver.loop] in *. destruct (cond s); [|exact L].
  destruct (body s) as [s1|s1|s1]; try exact L.
  apply (IH _ _ _ _ L). lia.
Qed.

Lemma script_more_fuel fuel fuel' how (sf : state W) :
  script fuel = Exit how sf -> (fuel <= fuel')%nat ->
  script fuel' = Exit how sf.
Proof.
  unfold Driver.script. destruct prologue as [s0|s0|s0]; try discriminate.
  destruct (loop fuel s0) as [h s'| |] eqn:L; try discriminate.
  intros E Hf. now rewrite (loop_more_fuel _ _ _ _ _ L Hf).
Qed.


(** The state the loop is entered in. *)
Lemma prologue_eq :
  prologue =
  Next (mkState 0 0%nat (mkExpression 0 dispTot Ttot) w0 w0 None
          (1 :: zeros numSteps) (zeros totSteps)
          (map (fun name => (name, 0, w0)) field_names)
          [Text rule36; Text "Simulation Start"; Text rule36]
          1%nat (now 0%nat) [] None).
Proof. reflexivity. Qed.

Lemma after_steps_0 (s : state W) :
  after_steps 0 = Some s ->
  s = mkState 0 0%nat (mkExpression 0 dispTot Ttot) w0 w0 None
        (1 :: zeros numSteps) (zeros totSteps)
        (map (fun name => (name, 0, w0)) field_names)
        [Text rule36; Text "Simulation Start"; Text rule36]
        1%nat (now 0%nat) [] None.
Proof.
  cbn [Driver.after_steps]. rewrite prologue_eq. intro E. now injection E.
Qed.

(** What the script hands over from the loop: the last loop head reached,
    whose recorded output is the final one. *)
Lemma script_Exit_head fuel how (sf : state W) :
  script fuel = Exit how sf ->
  exists k sk,
    after_steps k = Some sk /\ converged_steps how sf = k /\
    (k <= numSteps)%nat /\
    (how = CondFalse -> k = numSteps /\ t sf = t sk /\
                        dispRamp sf = dispRamp sk /\
                        solver_calls sf = solver_calls sk) /\
    file_results sf = file_results sk /\
    timeHist0 sf = timeHist0 sk /\
    timeHist1 sf = timeHist1 sk /\
    stdout sf = stdout sk ++ end_banner (now (clock sk) - startTime sk).
Proof.
  intro E. destruct (script_Exit_inv _ _ _ _ _ _ _ _ E) as (s & -> & Hcase).
  rewrite finish_eq.
  destruct Hcase as [[-> A] | [-> (k & sk & Hk & A & B)]].
  - exists numSteps, s. pose proof (after_steps_head _ _ _ _ _ _ _ A) as H.
    cbn [converged_steps ii file_results timeHist0 timeHist1 stdout t
         dispRamp solver_calls].
    split; [exact A|].
    split; [exact (head_ii _ _ _ _ _ H)|].
    split; [lia|].
    split; [intros _; repeat split|].
    repeat split.
  - exists k, sk. pose proof (after_steps_head _ _ _ _ _ _ _ A) as H.
    destruct (body_Break_inv _ _ _ _ _ _ B) as (w' & _ & ->).
    cbn [converged_steps ii file_results timeHist0 timeHist1 stdout clock
         startTime].
    split; [exact A|].
    split; [exact (head_ii _ _ _ _ _ H)|].
    split; [lia|].
    split; [discriminate|].
    repeat split.
Qed.

(** *** The results file *)

Lemma head_file_results j (s : state W) :
  after_steps j = Some s ->
  map fst (file_results s)
  = flat_map (fun i => map (fun name => (name, tseq i)) field_names)
      (seq 0 (S j)).
Proof.
  revert s. induction j as [|j IH]; intros s E.
  - rewrite (after_steps_0 _ E). reflexivity.
  - destruct (after_steps_S_inv _ _ _ _ _ _ _ E) as (s1 & E1 & C & B).
    pose proof (after_steps_head _ _ _ _ _ _ _ E1) as H.
    destruct (body_Next_inv _ _ _ _ _ _ B)
      as (w' & it & c & a0 & a1 & _ & _ & _ & ->).
    cbn [file_results].
    rewrite map_app, (IH _ E1), (seq_S (S j) 0), flat_map_app.
    f_equal. rewrite (head_t _ _ _ _ _ H). reflexivity.
Qed.

(** *** Continuation and the stress series *)

(** X13: every pass starts the solver from the field the pass before it
    converged to (the first from the zero field), at the ramp value of its
    own step, and the stress series holds at index [i] the reaction
    [2*assemble(P11*ds(35))/(W0*T0)] of the field step [i] converged to;
    index 0 stays 0. *)
Theorem continuation_and_stress_series j (s : state W) :
  after_steps j = Some s ->
  let hist := map fst (solver_calls s) ++ [w s] in
  List.length (solver_calls s) = j /\
  nth 0 hist w0 = w0 /\
  nth 0 (timeHist1 s) 0 = 0 /\
  forall i, (1 <= i <= j)%nat ->
    (exists it c,
       solve (nth (i - 1) hist w0) (dispTot * tseq i / Ttot)
       = Returned (nth i hist w0) it c) /\
    nth i (timeHist1 s) 0 = 2 * assemble_P11 (nth i hist w0) / (W0 * T0).
Proof.
  revert s. induction j as [|j IH]; intros s E.
  - rewrite (after_steps_0 _ E). cbn [solver_calls w map app timeHist1].
    repeat split; try reflexivity; lia.
  - destruct (after_steps_S_inv _ _ _ _ _ _ _ E) as (s1 & E1 & C & B).
    pose proof (after_steps_head _ _ _ _ _ _ _ E1) as H.
    destruct (IH _ E1) as (Hlen & H0 & Hz & Hi).
    destruct (body_Next_inv _ _ _ _ _ _ B)
      as (w' & it & c & a0 & a1 & Es & _ & E1' & ->).
    rewrite (head_ii _ _ _ _ _ H) in E1'.
    rewrite (head_bc _ _ _ _ _ H) in Es.
    cbn [solver_calls w timeHist1]. rewrite map_app. cbn [map fst].
    set (hist := map fst (solver_calls s1) ++ [w s1]) in *.
    assert (Hh : List.length hist = S j)
      by (unfold hist; rewrite length_app, length_map, Hlen; cbn; lia).
    assert (Hlast : nth j hist w0 = w s1).
    { unfold hist. rewrite app_nth2; rewrite length_map, Hlen; [|lia].
      now rewrite Nat.sub_diag. }
    split; [rewrite length_app, Hlen; cbn; lia|].
    split; [rewrite app_nth1 by lia; exact H0|].
    split; [rewrite (setitem_nth_other _ _ _ _ 0%nat 0 E1') by lia; exact Hz|].
    intros i Hir. destruct (Nat.eq_dec i (S j)) as [-> | Hne].
    + replace (S j - 1)%nat with j by lia.
      rewrite (app_nth1 hist) by lia. rewrite Hlast.
      rewrite app_nth2, Hh, Nat.sub_diag by lia. cbn [nth].
      split; [eauto|]. exact (setitem_nth_same _ _ _ _ 0 E1').
    + rewrite !(app_nth1 hist) by lia.
      rewrite (setitem_nth_other _ _ _ _ i 0 E1') by lia.
      apply Hi. lia.
Qed.

(** *** The progress lines *)

Lemma head_progress_lines j (s : state W) :
  after_steps j = Some s ->
  filter is_progress (stdout s)
  = map (fun i => Progress step (round (tseq i) 4) (now i)) (seq 1 j).
Proof.
  revert s. induction j as [|j IH]; intros s E.
  - rewrite (after_steps_0 _ E). reflexivity.
  - destruct (after_steps_S_inv _ _ _ _ _ _ _ E) as (s1 & E1 & C & B).
    pose proof (after_steps_head _ _ _ _ _ _ _ E1) as H.
    destruct (body_Next_inv _ _ _ _ _ _ B)
      as (w' & it & c & a0 & a1 & _ & _ & _ & ->).
    cbn [stdout].
    rewrite !filter_app, (IH _ E1), seq_S, map_app.
    cbn [filter is_progress map]. rewrite !app_nil_r.
    rewrite (head_t _ _ _ _ _ H), (head_clock _ _ _ _ _ H). reflexivity.
Qed.


(** X11: whatever the solver does, the script ends, by the loop condition
    or by the [break], and never with an index out of range; more fuel than
    [numSteps] passes need changes nothing.  The counter ends at most at
    [numSteps] and counts the calls of the solver. *)
Theorem script_ends_for_every_solver (fuel fuel' : nat) :
  (numSteps < fuel)%nat -> (fuel <= fuel')%nat ->
  exists how sf,
    script fuel = Exit how sf /\
    script fuel' = Exit how sf /\
    (ii sf <= numSteps)%nat /\
    List.length (solver_calls sf) = ii sf.
Proof.
  intros Hf Hf'.
  destruct (script_terminates W w0 solve assemble_P11 now fuel Hf)
    as (how & sf & E).
  exists how, sf. split; [exact E|].
  split; [exact (script_more_fuel _ _ _ _ E Hf')|].
  destruct (script_Exit_inv _ _ _ _ _ _ _ _ E) as (s & -> & Hcase).
  rewrite finish_eq. cbn [ii solver_calls].
  destruct Hcase as [[_ A] | [_ (k & sk & Hk & A & B)]].
  - pose proof (after_steps_head _ _ _ _ _ _ _ A) as H.
    rewrite (head_ii _ _ _ _ _ H). split; [lia|].
    rewrite <- (length_map snd), (head_calls _ _ _ _ _ H), length_map.
    apply length_seq.
  - pose proof (after_steps_head _ _ _ _ _ _ _ A) as H.
    destruct (body_Break_inv _ _ _ _ _ _ B) as (w' & _ & ->).
    cbn [ii solver_calls]. rewrite (head_ii _ _ _ _ _ H). split; [lia|].
    rewrite length_app, <- (length_map snd (solver_calls sk)),
      (head_calls _ _ _ _ _ H), length_map, length_seq.
    cbn [List.length]. lia.
Qed.

(** X12: the results file holds the eight fields of the initial state at
    time 0 and then, in step order, the eight fields of every converged
    step at the time of that step, and nothing of a failed step; the times
    increase strictly from block to block. *)
Theorem results_file_in_step_order (fuel : nat) (how : loop_exit)
    (sf : state W) :
  script fuel = Exit how sf ->
  map fst (file_results sf)
  = flat_map (fun i => map (fun name => (name, tseq i)) field_names)
      (seq 0 (S (converged_steps how sf))) /\
  List.length (file_results sf) = (8 * S (converged_steps how sf))%nat /\
  forall i k, (i < k)%nat -> tseq i < tseq k.
Proof.
  intro E.
  destruct (script_Exit_head _ _ _ E)
    as (k & sk & A & -> & _ & _ & -> & _).
  pose proof (head_file_results _ _ A) as F.
  split; [exact F|]. split; [|exact tseq_lt].
  rewrite <- (length_map fst), F, length_blocks. reflexivity.
Qed.



End Run.


(** *** The theorems on sample runs *)

(** X11 on the run whose fourth solve raises. *)
Lemma script_ends_sample :
  (numSteps < 101)%nat /\ (101 <= 200)%nat /\
  exists how sf,
    script nat 0%nat (sample_solve 4) sample_assemble ticking 101
      = Exit how sf /\
    script nat 0%nat (sample_solve 4) sample_assemble ticking 200
      = Exit how sf.
Proof.
  assert (H1 : (numSteps < 101)%nat) by (unfold numSteps; lia).
  assert (H2 : (101 <= 200)%nat) by lia.
  repeat (split; [assumption|]).
  destruct (script_ends_for_every_solver nat 0%nat (sample_solve 4)
              sample_assemble ticking 101 200 H1 H2)
    as (how & sf & E1 & E2 & _).
  exists how, sf. split; assumption.
Defined.

(** X12 on the run whose fourth solve raises: four blocks of eight. *)
Lemma results_file_sample :
  script nat 0%nat (sample_solve 4) sample_assemble ticking 10
    = Exit BreakStmt (sample_final 4 ticking 10) /\
  List.length (file_results (sample_final 4 ticking 10))
  = (8 * S (converged_steps BreakStmt (sample_final 4 ticking 10)))%nat.
Proof.
  assert (H1 : script nat 0%nat (sample_solve 4) sample_assemble ticking 10
               = Exit BreakStmt (sample_final 4 ticking 10))
    by (vm_compute; reflexivity).
  split; [assumption|].
  exact (proj1 (proj2
           (results_file_in_step_order nat 0%nat (sample_solve 4)
              sample_assemble ticking 10 BreakStmt
              (sample_final 4 ticking 10) H1))).
Defined.

(** X13 after three passes of the run whose fourth solve raises. *)
Lemma continuation_sample :
  after_steps nat 0%nat (sample_solve 4) sample_assemble ticking 3
    = Some (sample_head 4 ticking 3) /\
  List.length (solver_calls (sample_head 4 ticking 3)) = 3%nat.
Proof.
  assert (H1 : after_steps nat 0%nat (sample_solve 4) sample_assemble ticking 3
               = Some (sample_head 4 ticking 3)) by (vm_compute; reflexivity).
  split; [assumption|].
  pose proof (continuation_and_stress_series nat 0%nat (sample_solve 4)
                sample_assemble ticking 3 (sample_head 4 ticking 3) H1) as T.
  cbv zeta in T. exact (proj1 T).
Defined.



End DriverMore.

(** ** The shear modulus and the stresses, argument by argument *)

Module StressAndModulus.
Import Kinematics Fields Partial KinematicsFacts KinematicsMore.
Local Open Scope R_scope.

Lemma power_pos x y : 0 < x -> power x y = Some (Rpower x y).
Proof. intro H. unfold power. destruct (Rlt_dec 0 x); [reflexivity | lra]. Qed.

Lemma power_neg x y : x < 0 -> power x y = None.
Proof.
  intro H. unfold power. destruct (Rlt_dec 0 x); [lra|].
  destruct (Rlt_dec x 0); [reflexivity | lra].
Qed.

Lemma divide_nonzero a b : b <> 0 -> divide a b = Some (a / b).
Proof.
  intro H. unfold divide.
  destruct (Req_dec_T b 0); [contradiction | reflexivity].
Qed.

Lemma divide_zero a : divide a 0 = None.
Proof.
  unfold divide. destruct (Req_dec_T 0 0); [reflexivity | contradiction].
Qed.

Lemma root_nonneg x : 0 <= x -> root x = Some (sqrt x).
Proof. intro H. unfold root. destruct (Rle_dec 0 x); [reflexivity | lra]. Qed.

Lemma tr_C_nonneg F : 0 <= tr (mmul (transpose F) F).
Proof.
  cbv [tr mmul transpose m11 m12 m13 m21 m22 m23 m31 m32 m33]. nra.
Qed.

(** Where the module-level [J] is positive the effective stretch has a
    value, the one of the real-valued expression. *)
Lemma lambdaBar_calc_value_pos u_w u :
  0 < J_global u_w ->
  lambdaBar_calc_value u_w u = Some (lambdaBar_calc u_w u).
Proof.
  intro HJ. unfold lambdaBar_calc_value, lambdaBar_calc.
  rewrite (power_pos _ _ HJ). cbn [bind].
  rewrite root_nonneg; [reflexivity|].
  rewrite tr_smul. apply div_nonneg; [|lra].
  apply Rmult_le_pos; [|apply tr_C_nonneg].
  left. unfold Rpower. apply exp_pos.
Qed.

Lemma zeta_calc_value_pos u_w u :
  0 < J_global u_w -> 0 < lambdaBar_calc u_w u ->
  zeta_calc_value u_w u = Some (zeta_calc u_w u).
Proof.
  intros HJ Hl. unfold zeta_calc_value, zeta_calc.
  rewrite (lambdaBar_calc_value_pos _ _ HJ). cbn [bind].
  set (lb := lambdaBar_calc u_w u) in *.
  assert (Hz : 0 <= conditional_gt (lb / lambdaL) <= 0.95).
  { rewrite conditional_gt_Rmin. split; [|apply Rmin_r].
    apply Rmin_glb; [|lra].
    apply div_nonneg; [lra | unfold lambdaL; lra]. }
  rewrite divide_nonzero by nra. cbn [bind].
  rewrite divide_nonzero by lra. cbn [bind].
  reflexivity.
Qed.




Lemma J_global_inverted : J_global inverted = -1.
Proof.
  cbv [J_global F_global det F_calc inverted grad madd Identity3
       m11 m12 m13 m21 m22 m23 m31 m32 m33]. ring.
Qed.

Lemma lambdaBar_calc_collapsed : lambdaBar_calc zero_field collapsed = 0.
Proof.
  unfold lambdaBar_calc. generalize (Rpower (J_global zero_field) (-2/3)).
  intro r. rewrite <- sqrt_0. f_equal.
  cbv [F_calc collapsed grad tr smul mmul transpose madd Identity3
       m11 m12 m13 m21 m22 m23 m31 m32 m33]. field.
Qed.


(** *** The stresses at an argument other than the module-level field *)

Lemma lambdaBar_calc_rest_stretched :
  lambdaBar_calc zero_field stretched = sqrt 2.
Proof.
  unfold lambdaBar_calc, J_global, F_global.
  rewrite F_calc_zero, det_Identity3, Rpower_base_1. f_equal.
  cbv [F_calc stretched grad tr smul mmul transpose madd Identity3
       m11 m12 m13 m21 m22 m23 m31 m32 m33].
  field.
Qed.

Lemma det_stretched : det (F_calc stretched) = 2.
Proof.
  cbv [det F_calc stretched grad madd Identity3
       m11 m12 m13 m21 m22 m23 m31 m32 m33]. ring.
Qed.

Lemma lambdaBar_calc_stretched :
  lambdaBar_calc stretched stretched = sqrt (2 * Rpower 2 (-2/3)).
Proof.
  unfold lambdaBar_calc, J_global, F_global. rewrite det_stretched.
  f_equal. generalize (Rpower 2 (-2/3)). intro r.
  cbv [F_calc stretched grad tr smul mmul transpose madd Identity3
       m11 m12 m13 m21 m22 m23 m31 m32 m33].
  field.
Qed.

Lemma div_eq_cross a b c d :
  b <> 0 -> d <> 0 -> a / b = c / d -> a * d = c * b.
Proof.
  intros Hb Hd H.
  assert (E : a = c / d * b) by (rewrite <- H; field; exact Hb).
  rewrite E. field. exact Hd.
Qed.

(** The two moduli differ: the one [Gshear_AB_calc] computes with the
    module-level field at rest, and the one of the stretched field. *)
Lemma Gshear_rest_stretched :
  Gshear_AB_calc zero_field stretched <> G_spec stretched.
Proof.
  rewrite G_spec_eq.
  assert (HL : lambdaL = 5.12) by reflexivity.
  pose proof Rpower_2_lt_1 as Hr1.
  assert (Hr0 : 0 < Rpower 2 (-2/3)) by (unfold Rpower; apply exp_pos).
  set (r := Rpower 2 (-2/3)) in *.
  assert (S2 : sqrt 2 * sqrt 2 = 2) by (apply sqrt_sqrt; lra).
  assert (Sr : sqrt (2 * r) * sqrt (2 * r) = 2 * r) by (apply sqrt_sqrt; lra).
  assert (P2 : 0 < sqrt 2) by (apply sqrt_lt_R0; lra).
  assert (Pr : 0 < sqrt (2 * r)) by (apply sqrt_lt_R0; lra).
  assert (B2 : sqrt 2 <= 2) by nra.
  assert (Br : sqrt (2 * r) <= 2) by nra.
  destruct (zeta_below zero_field stretched) as (Hz1 & E1);
    [rewrite lambdaBar_calc_rest_stretched; lra
    |rewrite lambdaBar_calc_rest_stretched; lra|].
  destruct (zeta_below stretched stretched) as (Hz2 & E2);
    [rewrite lambdaBar_calc_stretched; fold r; lra
    |rewrite lambdaBar_calc_stretched; fold r; lra|].
  rewrite lambdaBar_calc_rest_stretched in Hz1, E1.
  rewrite lambdaBar_calc_stretched in Hz2, E2. fold r in Hz2, E2.
  unfold Gshear_AB_calc. rewrite E1, E2. intro H.
  apply Rmult_eq_reg_l in H; [|unfold Gshear_0; lra].
  apply div_eq_cross in H; [|nra|nra].
  assert (Z1 : (sqrt 2 / lambdaL) ^ 2 = 2 / lambdaL ^ 2)
    by (transitivity (sqrt 2 * sqrt 2 / lambdaL ^ 2);
        [field; lra | now rewrite S2]).
  assert (Z2 : (sqrt (2 * r) / lambdaL) ^ 2 = 2 * r / lambdaL ^ 2)
    by (transitivity (sqrt (2 * r) * sqrt (2 * r) / lambdaL ^ 2);
        [field; lra | now rewrite Sr]).
  rewrite Z1, Z2 in H.
  assert (HLL : lambdaL ^ 2 = 26.2144) by (rewrite HL; lra).
  rewrite HLL in H. lra.
Qed.


Lemma inv_transpose_stretched :
  inv (transpose (F_calc stretched)) = mk33 (1 / 2) 0 0  0 1 0  0 0 1.
Proof.
  cbv [inv adj det smul transpose F_calc stretched grad madd Identity3
       m11 m12 m13 m21 m22 m23 m31 m32 m33].
  f_equal; field.
Qed.

(** C8, at an argument other than the module-level displacement.  With the
    module-level field at rest and the argument stretched by 2 along one
    axis, the Cauchy stress of [T_calc] and the Piola stress of [Tmat_calc]
    are not the stresses of the text at that argument, whatever the
    pressure: their shear modulus comes from [lambdaBar_calc], which scales
    with the module-level [J]. *)
Theorem C8_stresses_read_module_J (p : R) :
  Gshear_AB_calc zero_field stretched <> G_spec stretched /\
  T_calc zero_field stretched p <> T_spec stretched p /\
  Tmat_calc zero_field stretched p <> P_spec stretched p.
Proof.
  pose proof Gshear_rest_stretched as HG.
  assert (Hr0 : 0 < Rpower 2 (-2/3)) by (unfold Rpower; apply exp_pos).
  split; [exact HG|].
  assert (HT : m11 (T_calc zero_field stretched p)
               <> m11 (T_spec stretched p)).
  { unfold T_calc, T_spec. rewrite det_stretched.
    revert HG Hr0.
    generalize (Gshear_AB_calc zero_field stretched) (G_spec stretched)
      (Rpower 2 (-2/3)).
    intros gc gs r HG Hr0 H. apply HG.
    cbv [F_calc stretched grad dev msub madd mmul smul transpose tr Identity3
         m11 m12 m13 m21 m22 m23 m31 m32 m33] in H.
    apply Rmult_eq_reg_r with r; [nra | lra]. }
  split; [intro E; apply HT; now rewrite E|].
  intro E. apply HT.
  apply (f_equal m11) in E. unfold Tmat_calc, P_spec in E.
  rewrite <- inv_transpose, inv_transpose_stretched, det_stretched in E.
  revert E.
  generalize (T_calc zero_field stretched p) (T_spec stretched p).
  intros [a11 a12 a13 a21 a22 a23 a31 a32 a33]
         [b11 b12 b13 b21 b22 b23 b31 b32 b33] E.
  cbv [mmul smul m11 m12 m13 m21 m22 m23 m31 m32 m33] in *. lra.
Qed.

End StressAndModulus.
